(** * desingUtil: the interactive canvas subsystem

    A shallow embedding of [components/ImageCanvas.tsx] (the viewport canvas,
    the brush engine, the drag-handle controller and the two exports) and of
    the handlers of [components/EditPane.tsx] that drive it.

    Numbers.  A JavaScript [number] is modelled by an exact rational ([Q]).
    Rounding is therefore idealised away, and the non-finite values
    ([Infinity], [NaN]) have no representative: every operation that would
    produce one (a division by zero) ends the computation with the outcome
    [Outside], and so does [Number] of a string the model does not read, so
    that the model never asserts anything about them.  Where rounding
    decides a property, the module [Double] has the same code over binary64
    floating-point numbers, which is what the program computes with.

    Strings.  A string is modelled by the bytes of its UTF-8 encoding. *)

From Stdlib Require Import QArith Qminmax Qabs Qround Lqa Lia ZArith.
From Stdlib Require Import List String Ascii Bool.
From Stdlib Require Import DecimalString DecimalN.
From Stdlib Require Import Floats.
Import ListNotations.

Open Scope Q_scope.

(** ** Outcomes of a call *)

Inductive outcome (A : Type) : Type :=
| Ret (a : A)            (* normal completion *)
| Throw (msg : string)   (* [throw new Error(msg)] *)
| Outside.               (* a number left the model: see above *)

Arguments Ret {A} a.
Arguments Throw {A} msg.
Arguments Outside {A}.

Definition bind {A B : Type} (m : outcome A) (k : A -> outcome B) : outcome B :=
  match m with
  | Ret a => k a
  | Throw msg => Throw msg
  | Outside => Outside
  end.

Notation "x <- m ;; k" := (bind m (fun x => k))
  (at level 61, m at next level, right associativity).

(** ** Numbers *)

(** [a < b] and [a > b] on numbers, as booleans. *)
Definition Qltb (a b : Q) : bool := negb (Qle_bool b a).
Definition Qgtb (a b : Q) : bool := Qltb b a.

(** [a / b] where [b] is not a literal. *)
Definition jsdiv (a b : Q) : outcome Q :=
  if Qeq_bool b 0 then Outside else Ret (a / b).

(** [Math.max(a, b)] on finite numbers. *)
Definition Math_max (a b : Q) : Q := Qmax a b.

(** ** Geometry *)

Record Point : Type := mkPoint { px : Q; py : Q }.

Record Rect : Type := mkRect { x : Q; y : Q; width : Q; height : Q }.

(** Two rectangles denoting the same numbers. *)
Definition Rect_eq (r s : Rect) : Prop :=
  x r == x s /\ y r == y s /\ width r == width s /\ height r == height s.

(** [outer] fully contains [inner]. *)
Definition contains (outer inner : Rect) : Prop :=
  x outer <= x inner /\ y outer <= y inner /\
  x inner + width inner <= x outer + width outer /\
  y inner + height inner <= y outer + height outer.

Definition HANDLE_SIZE : Q := 12.

(** The part of [HTMLImageElement] the component reads. *)
Record HTMLImageElement : Type := mkImage {
  naturalWidth : Q;
  naturalHeight : Q
}.

(** The part of the container [div] the component reads: its client size and
    the origin of its bounding client rectangle. *)
Record Container : Type := mkContainer {
  clientWidth : Q;
  clientHeight : Q;
  left : Q;
  top : Q
}.

(** The DOM around the component.  The three refs ([containerRef],
    [imageCanvasRef], [maskCanvasRef]) are attached by the same commit, so one
    option stands for all three; [has2d] tells whether [getContext('2d')]
    returns a context. *)
Record Dom : Type := mkDom {
  containerRef : option Container;
  has2d : bool
}.

Definition fitImageToContainer (dom : Dom) (img : HTMLImageElement) : outcome Rect :=
  match containerRef dom with
  | None => Ret (mkRect 0 0 0 0)
  | Some c =>
      let containerWidth := clientWidth c in
      let containerHeight := clientHeight c in
      imageRatio <- jsdiv (naturalWidth img) (naturalHeight img) ;;
      fitHeight0 <- jsdiv containerWidth imageRatio ;;
      let fitWidth0 := containerWidth in
      let '(fitWidth, fitHeight) :=
        if Qgtb fitHeight0 containerHeight
        then (containerHeight * imageRatio, containerHeight)
        else (fitWidth0, fitHeight0) in
      let fitX := (containerWidth - fitWidth) / 2 in
      let fitY := (containerHeight - fitHeight) / 2 in
      Ret (mkRect fitX fitY fitWidth fitHeight)
  end.

(** ** Drag-handle controller *)

(** [s.includes(c)] for a one-character needle. *)
Fixpoint includes (s : string) (c : ascii) : bool :=
  match s with
  | EmptyString => false
  | String a s' => Ascii.eqb a c || includes s' c
  end.

Definition handles : list string :=
  ["t"; "b"; "l"; "r"; "tl"; "tr"; "bl"; "br"]%string.

(** The updater passed to [setCanvasRect] by [handleMouseMove]; [ptrX] and
    [ptrY] are the pointer coordinates relative to the container. *)
Definition dragUpdate (isDragging : string) (ptrX ptrY : Q) (prev : Rect) : Rect :=
  let newX := x prev in
  let newY := y prev in
  let newW := width prev in
  let newH := height prev in
  let newW := if includes isDragging "r" then ptrX - newX else newW in
  let '(newW, newX) :=
    if includes isDragging "l" then (newW + (newX - ptrX), ptrX) else (newW, newX) in
  let newH := if includes isDragging "b" then ptrY - newY else newH in
  let '(newH, newY) :=
    if includes isDragging "t" then (newH + (newY - ptrY), ptrY) else (newH, newY) in
  mkRect newX newY (Math_max newW (HANDLE_SIZE * 2)) (Math_max newH (HANDLE_SIZE * 2)).




(** ** Brush engine *)

(** [EditTool] of [types.ts]. *)
Inductive EditTool : Type :=
| inpainting | expand | resize | background
| relighting | skyReplace | textRemove | upscale.

Definition EditTool_eqb (a b : EditTool) : bool :=
  match a, b with
  | inpainting, inpainting | expand, expand | resize, resize
  | background, background | relighting, relighting
  | skyReplace, skyReplace | textRemove, textRemove | upscale, upscale => true
  | _, _ => false
  end.

(** [activeTool === tool] on [EditTool | null]. *)
Definition activeTool_is (active : option EditTool) (tool : EditTool) : bool :=
  match active with
  | Some a => EditTool_eqb a tool
  | None => false
  end.

(** The props of [ImageCanvas] ([brushColor] is received but never read). *)
Record Props : Type := mkProps {
  src : string;
  brushSize : Q;
  brushOpacity : Q;
  brushHardness : Q;
  activeTool : option EditTool
}.

Definition isExpandable (p : Props) : bool :=
  activeTool_is (activeTool p) expand || activeTool_is (activeTool p) resize.

Definition isPaintable (p : Props) : bool :=
  activeTool_is (activeTool p) inpainting.

(** [rgba(r, g, b, a)]. *)
Record Color : Type := rgba { red : Q; green : Q; blue : Q; alpha : Q }.

Record ColorStop : Type := mkStop { offset : Q; color : Color }.

(** A radial gradient from radius 0 to [r1] around one centre, with its
    colour stops in the order they were added. *)
Record CanvasGradient : Type := mkGradient {
  gx : Q; gy : Q; r1 : Q;
  stops : list ColorStop
}.

Definition createRadialGradient (cx cy r : Q) : CanvasGradient :=
  mkGradient cx cy r [].

(** [gradient.addColorStop(offset, color)]: an offset outside [0, 1] raises
    an [IndexSizeError]. *)
Definition addColorStop (g : CanvasGradient) (o : Q) (c : Color)
  : outcome CanvasGradient :=
  if Qltb o 0 || Qgtb o 1 then Throw "IndexSizeError"
  else Ret (mkGradient (gx g) (gy g) (r1 g) (stops g ++ [mkStop o c])).

(** One filled disc: [arc(x, y, radius, 0, 2π)] filled with [fillStyle]. *)
Record Stamp : Type := mkStamp {
  centre : Point;
  radius : Q;
  fillStyle : CanvasGradient
}.

Definition drawSoftCircle (p : Props) (cx cy : Q) : outcome Stamp :=
  let radius := brushSize p / 2 in
  let gradient := createRadialGradient cx cy radius in
  let solidColor := rgba 255 0 255 (brushOpacity p) in
  let transparentColor := rgba 255 0 255 0 in
  gradient <- addColorStop gradient 0 solidColor ;;
  gradient <- addColorStop gradient (Math_max 0 (brushHardness p)) solidColor ;;
  gradient <- addColorStop gradient 1 transparentColor ;;
  Ret (mkStamp (mkPoint cx cy) radius gradient).

(** The stamp [drawSoftCircle] makes when no colour stop is refused. *)
Definition softCircle (p : Props) (cx cy : Q) : Stamp :=
  mkStamp (mkPoint cx cy) (brushSize p / 2)
    (mkGradient cx cy (brushSize p / 2)
       [mkStop 0 (rgba 255 0 255 (brushOpacity p));
        mkStop (Math_max 0 (brushHardness p)) (rgba 255 0 255 (brushOpacity p));
        mkStop 1 (rgba 255 0 255 0)]).

(** *** How a gradient is rendered

    The alpha the canvas gives to the gradient at parameter [t]: the colour of
    the first stop before it, of the last stop from it on, and the linear
    interpolation of the two neighbouring stops in between. *)
Definition lerp (a b : ColorStop) (t : Q) : Q :=
  alpha (color a)
  + (alpha (color b) - alpha (color a)) * ((t - offset a) / (offset b - offset a)).

Fixpoint alphaFrom (prev : ColorStop) (rest : list ColorStop) (t : Q) : Q :=
  match rest with
  | [] => alpha (color prev)
  | s :: rest' => if Qltb t (offset s) then lerp prev s t else alphaFrom s rest' t
  end.

Definition gradientAlpha (g : CanvasGradient) (t : Q) : Q :=
  match stops g with
  | [] => 0
  | s :: rest => if Qltb t (offset s) then alpha (color s) else alphaFrom s rest t
  end.

(** The alpha a stamp lays down at distance [d >= 0] from its centre: the
    disc stops at [radius], the gradient runs from the centre to [r1]. *)
Definition stampAlpha (s : Stamp) (d : Q) : Q :=
  if Qgtb d (radius s) then 0 else gradientAlpha (fillStyle s) (d / r1 (fillStyle s)).

(** ** The component state *)

Record CanvasState : Type := mkCanvas {
  imageEl : option HTMLImageElement;
  isDrawing : bool;
  lastPoint : option Point;
  mousePos : Point;
  isDragging : option string;
  canvasRect : Rect;
  imageDrawRect : Rect;
  (* the bitmap of the mask canvas: the stamps filled since it was last
     cleared, oldest first *)
  maskCanvas : list Stamp
}.

Definition initialCanvas : CanvasState :=
  mkCanvas None false None (mkPoint (-100) (-100)) None
           (mkRect 0 0 0 0) (mkRect 0 0 0 0) [].

Definition setImageEl (v : option HTMLImageElement) (s : CanvasState) :=
  mkCanvas v (isDrawing s) (lastPoint s) (mousePos s) (isDragging s)
           (canvasRect s) (imageDrawRect s) (maskCanvas s).
Definition setIsDrawing (v : bool) (s : CanvasState) :=
  mkCanvas (imageEl s) v (lastPoint s) (mousePos s) (isDragging s)
           (canvasRect s) (imageDrawRect s) (maskCanvas s).
Definition setLastPoint (v : option Point) (s : CanvasState) :=
  mkCanvas (imageEl s) (isDrawing s) v (mousePos s) (isDragging s)
           (canvasRect s) (imageDrawRect s) (maskCanvas s).
Definition setMousePos (v : Point) (s : CanvasState) :=
  mkCanvas (imageEl s) (isDrawing s) (lastPoint s) v (isDragging s)
           (canvasRect s) (imageDrawRect s) (maskCanvas s).
Definition setIsDragging (v : option string) (s : CanvasState) :=
  mkCanvas (imageEl s) (isDrawing s) (lastPoint s) (mousePos s) v
           (canvasRect s) (imageDrawRect s) (maskCanvas s).
Definition setCanvasRect (v : Rect) (s : CanvasState) :=
  mkCanvas (imageEl s) (isDrawing s) (lastPoint s) (mousePos s) (isDragging s)
           v (imageDrawRect s) (maskCanvas s).
Definition setImageDrawRect (v : Rect) (s : CanvasState) :=
  mkCanvas (imageEl s) (isDrawing s) (lastPoint s) (mousePos s) (isDragging s)
           (canvasRect s) v (maskCanvas s).
Definition setMaskCanvas (v : list Stamp) (s : CanvasState) :=
  mkCanvas (imageEl s) (isDrawing s) (lastPoint s) (mousePos s) (isDragging s)
           (canvasRect s) (imageDrawRect s) v.

(** [context.fill()] of one stamp on the mask canvas. *)
Definition fillOnMask (st : Stamp) (s : CanvasState) : CanvasState :=
  setMaskCanvas (maskCanvas s ++ [st]) s.

Record MouseEvent : Type := mkMouse { clientX : Q; clientY : Q }.

Definition getCoords (dom : Dom) (e : MouseEvent) : Point :=
  match containerRef dom with
  | None => mkPoint 0 0
  | Some c => mkPoint (clientX e - left c) (clientY e - top c)
  end.

(** The 2d context of the mask canvas, when there is one. *)
Definition maskContext (dom : Dom) : bool :=
  match containerRef dom with
  | None => false
  | Some _ => has2d dom
  end.

(** [redrawCanvas] assigns the size of both canvases, which empties their
    bitmaps, and draws the image on the image canvas.  It runs as an effect
    after every change of [imageEl] or [imageDrawRect]. *)
Definition redrawCanvas (dom : Dom) (s : CanvasState) : CanvasState :=
  match containerRef dom with
  | None => s
  | Some _ => setMaskCanvas [] s
  end.

(** The image load handler ([img.onload]), followed by the redraw. *)
Definition onload (dom : Dom) (img : HTMLImageElement) (s : CanvasState)
  : outcome CanvasState :=
  initialRect <- fitImageToContainer dom img ;;
  Ret (redrawCanvas dom
         (setCanvasRect initialRect
            (setImageDrawRect initialRect (setImageEl (Some img) s)))).

(** The [resize] listener of the window, followed by the redraw. *)
Definition handleResize (dom : Dom) (s : CanvasState) : outcome CanvasState :=
  match imageEl s with
  | Some img =>
      newRect <- fitImageToContainer dom img ;;
      Ret (redrawCanvas dom (setCanvasRect newRect (setImageDrawRect newRect s)))
  | None => Ret s
  end.

Definition startDrawing (p : Props) (dom : Dom) (e : MouseEvent) (s : CanvasState)
  : outcome CanvasState :=
  if negb (isPaintable p) then Ret s
  else
    let s := setIsDrawing true s in
    let pos := getCoords dom e in
    let s := setLastPoint (Some pos) s in
    if maskContext dom then
      st <- drawSoftCircle p (px pos) (py pos) ;;
      Ret (fillOnMask st s)
    else Ret s.

Definition stopDrawing (p : Props) (s : CanvasState) : CanvasState :=
  if negb (isPaintable p) then s
  else setLastPoint None (setIsDrawing false s).

Definition handleMouseDownOnHandle (p : Props) (handle : string) (s : CanvasState)
  : CanvasState :=
  if negb (isExpandable p) then s else setIsDragging (Some handle) s.

Definition handleMouseUp (s : CanvasState) : CanvasState :=
  setIsDragging None s.

(** A string is truthy when it is not empty. *)
Definition truthy (s : option string) : option string :=
  match s with
  | Some EmptyString => None
  | other => other
  end.

Definition handleMouseMove (dom : Dom) (e : MouseEvent) (s : CanvasState)
  : CanvasState :=
  match truthy (isDragging s), containerRef dom with
  | Some handle, Some c =>
      let ptrX := clientX e - left c in
      let ptrY := clientY e - top c in
      setCanvasRect (dragUpdate handle ptrX ptrY (canvasRect s)) s
  | _, _ => s
  end.

(** *** Painting a stroke

    [Math.hypot], [Math.atan2], [Math.cos] and [Math.sin] have no rational
    counterpart; [draw] is written over whatever functions stand for them. *)
Section Stroke.

Variable Math_hypot : Q -> Q -> Q.
Variable Math_atan2 : Q -> Q -> Q.
Variable Math_cos : Q -> Q.
Variable Math_sin : Q -> Q.

(** The increment of the loop of [draw]. *)
Definition strokeStep (p : Props) : Q := Math_max 1 (brushSize p / 10).

(** The loop [for (let i = 0; i < dist; i += step)] from [i] on; it returns
    the stamps it fills, in order. *)
Fixpoint strokeLoop (fuel : nat) (p : Props) (last : Point) (angle dist i : Q)
  : outcome (list Stamp) :=
  match fuel with
  | O => Ret []
  | S fuel' =>
      if Qltb i dist then
        let sx := px last + Math_cos angle * i in
        let sy := py last + Math_sin angle * i in
        st <- drawSoftCircle p sx sy ;;
        rest <- strokeLoop fuel' p last angle dist (i + strokeStep p) ;;
        Ret (st :: rest)
      else Ret []
  end.

(** The step is at least 1, so the loop from 0 makes at most [ceil dist]
    rounds. *)
Definition strokeFuel (dist : Q) : nat := Z.to_nat (Qceiling dist).

(** What [draw] fills on the mask for one pointer move from [last] to
    [currentPos]: the stamps of the loop, then one at [currentPos]. *)
Definition strokeStamps (p : Props) (last currentPos : Point) : outcome (list Stamp) :=
  let dist := Math_hypot (px currentPos - px last) (py currentPos - py last) in
  let angle := Math_atan2 (py currentPos - py last) (px currentPos - px last) in
  along <- strokeLoop (strokeFuel dist) p last angle dist 0 ;;
  final <- drawSoftCircle p (px currentPos) (py currentPos) ;;
  Ret (along ++ [final]).

Definition draw (p : Props) (dom : Dom) (e : MouseEvent) (s : CanvasState)
  : outcome CanvasState :=
  let currentPos := getCoords dom e in
  let s := setMousePos currentPos s in
  match isDrawing s && isPaintable p, lastPoint s with
  | true, Some last =>
      if maskContext dom then
        stamps <- strokeStamps p last currentPos ;;
        Ret (setLastPoint (Some currentPos)
               (setMaskCanvas (maskCanvas s ++ stamps) s))
      else Ret (setLastPoint (Some currentPos) s)
  | _, _ => Ret s
  end.

End Stroke.

(** A count, as a number. *)
Definition Qnat (n : nat) : Q := inject_Z (Z.of_nat n).

(** The values of [i] at which the body of the loop of [draw] runs. *)
Fixpoint strokeOffsets (fuel : nat) (dist step i : Q) : list Q :=
  match fuel with
  | O => []
  | S fuel' =>
      if Qltb i dist then i :: strokeOffsets fuel' dist step (i + step) else []
  end.

(** One drag gesture: the pointer goes down on a handle, then moves; the
    result is the canvas rectangle after each move. *)
Fixpoint rectsAfterMoves (dom : Dom) (moves : list MouseEvent) (s : CanvasState)
  : list Rect :=
  match moves with
  | [] => []
  | e :: rest =>
      let s' := handleMouseMove dom e s in
      canvasRect s' :: rectsAfterMoves dom rest s'
  end.

Definition dragGesture (p : Props) (dom : Dom) (handle : string)
  (moves : list MouseEvent) (s : CanvasState) : list Rect :=
  rectsAfterMoves dom moves (handleMouseDownOnHandle p handle s).

(** ** Exports *)

Inductive DrawCall : Type :=
| drawImage (img : HTMLImageElement) (dx dy : Q)
| drawImageSized (img : HTMLImageElement) (dx dy dw dh : Q)
| drawMaskCanvas (mask : list Stamp) (dx dy : Q)
| save
| scale (sx sy : Q)
| restore.

(** A canvas made by [document.createElement('canvas')]: the size it keeps
    and the calls made on its context. *)
Record OutputCanvas : Type := mkOutput {
  outWidth : Q;
  outHeight : Q;
  calls : list DrawCall
}.

(** What a canvas keeps of a number assigned to its [width] or [height].
    The attributes are [unsigned long]: the number is truncated to an
    integer and taken modulo 2^32, and a result above 2^31 - 1 gives way to
    the default size (300 for the width, 150 for the height).  The natural
    sizes of an image are whole numbers, kept as they are. *)
Definition canvasDimension (default : Q) (q : Q) : Q :=
  let n := (Z.quot (Qnum q) (Zpos (Qden q)) mod 2 ^ 32)%Z in
  if (n >? 2147483647)%Z then default else inject_Z n.

(** [canvas.toDataURL(mimeType)]. *)
Record DataURL : Type := toDataURL { source : OutputCanvas; encoding : string }.

Record Export : Type := mkExport { payload : DataURL; mimeType : string }.

(** Where the calls paint the pixel [pt] of the mask canvas on the output:
    one position for each time the mask canvas is drawn, under the scale in
    force ([cur]; [saved] is the stack of [save]). *)
Fixpoint maskLandings (cs : list DrawCall) (cur : Q * Q) (saved : list (Q * Q))
  (pt : Point) : list Point :=
  match cs with
  | [] => []
  | drawMaskCanvas _ dx dy :: cs' =>
      mkPoint (fst cur * (px pt + dx)) (snd cur * (py pt + dy))
      :: maskLandings cs' cur saved pt
  | save :: cs' => maskLandings cs' cur (cur :: saved) pt
  | scale sx sy :: cs' => maskLandings cs' (fst cur * sx, snd cur * sy) saved pt
  | restore :: cs' =>
      match saved with
      | [] => maskLandings cs' cur saved pt
      | t :: saved' => maskLandings cs' t saved' pt
      end
  | _ :: cs' => maskLandings cs' cur saved pt
  end.

Definition getCompositeImageWithMask (p : Props) (dom : Dom) (s : CanvasState)
  : outcome Export :=
  match imageEl s with
  | None => Throw "Image not loaded"
  | Some img =>
      let w := naturalWidth img in
      let h := naturalHeight img in
      if negb (has2d dom) then Throw "Could not get canvas context"
      else
        let drawn := [drawImage img 0 0] in
        drawn <-
          match containerRef dom with
          | Some _ =>
              scaleX <- jsdiv w (width (imageDrawRect s)) ;;
              scaleY <- jsdiv h (height (imageDrawRect s)) ;;
              Ret (drawn ++ [save; scale scaleX scaleY;
                             drawMaskCanvas (maskCanvas s)
                               (- x (imageDrawRect s)) (- y (imageDrawRect s));
                             restore])
          | None => Ret drawn
          end ;;
        let mimeType :=
          if prefix "data:image/jpeg" (src p) then "image/jpeg"%string
          else "image/png"%string in
        Ret (mkExport (toDataURL (mkOutput w h drawn) mimeType) mimeType)
  end.

Definition getFinalExpandedImage (dom : Dom) (s : CanvasState) : outcome Export :=
  match imageEl s with
  | None => Throw "Image not loaded"
  | Some img =>
      if negb (has2d dom) then Throw "Could not get canvas context"
      else
        let drawX := x (imageDrawRect s) - x (canvasRect s) in
        let drawY := y (imageDrawRect s) - y (canvasRect s) in
        let drawn := [drawImageSized img drawX drawY
                        (width (imageDrawRect s)) (height (imageDrawRect s))] in
        let mimeType := "image/png"%string in
        Ret (mkExport
               (toDataURL (mkOutput (canvasDimension 300 (width (canvasRect s)))
                                    (canvasDimension 150 (height (canvasRect s)))
                                    drawn)
                          mimeType)
               mimeType)
  end.

(** ** Canvas-rectangle commands *)

(** [s.split(':')]. *)
Fixpoint split_colon (s : string) : list string :=
  match s with
  | EmptyString => [EmptyString]
  | String c s' =>
      if Ascii.eqb c ":" then EmptyString :: split_colon s'
      else match split_colon s' with
           | [] => [String c EmptyString]
           | piece :: pieces => String c piece :: pieces
           end
  end.

(** [Number(s)] on the strings made of decimal digits only; every other
    string is left out of the model. *)
Definition Number (s : string) : outcome Q :=
  match NilEmpty.uint_of_string s with
  | Some d => Ret (inject_Z (Z.of_N (N.of_uint d)))
  | None => Outside
  end.

(** [const [w, h] = ratioStr.split(':').map(Number)]. *)
Definition parseRatio (ratioStr : string) : outcome (Q * Q) :=
  match map Number (split_colon ratioStr) with
  | w :: h :: _ =>
      w <- w ;;
      h <- h ;;
      Ret (w, h)
  | _ => Outside
  end.

(** [setAspectRatio] in exact arithmetic; [Double.setAspectRatio] below is
    the same code with the rounding of every operation. *)
Definition setAspectRatio (ratioStr : string) (s : CanvasState) : outcome CanvasState :=
  match imageEl s with
  | None => Ret s
  | Some _ =>
      wh <- parseRatio ratioStr ;;
      let '(w, h) := wh in
      targetRatio <- jsdiv w h ;;
      imgRatio <- jsdiv (width (imageDrawRect s)) (height (imageDrawRect s)) ;;
      size <-
        (if Qgtb targetRatio imgRatio then
           let newH := height (imageDrawRect s) in
           Ret (newH * targetRatio, newH)
         else
           let newW := width (imageDrawRect s) in
           newH <- jsdiv newW targetRatio ;;
           Ret (newW, newH)) ;;
      let '(newW, newH) := size in
      let newX := x (imageDrawRect s) - (newW - width (imageDrawRect s)) / 2 in
      let newY := y (imageDrawRect s) - (newH - height (imageDrawRect s)) / 2 in
      Ret (setCanvasRect (mkRect newX newY newW newH) s)
  end.

(** The ratio string ['W:H'] of two naturals, in decimal digits. *)
Definition ratioString (W H : N) : string :=
  (NilEmpty.string_of_uint (N.to_uint W) ++ ":"
   ++ NilEmpty.string_of_uint (N.to_uint H))%string.

(** [ASPECT_RATIOS] of [constants.ts]. *)
Definition ASPECT_RATIOS : list string := ["1:1"; "16:9"; "9:16"; "4:3"; "3:4"]%string.

Definition setExplicitCanvasSize (dom : Dom) (width height : Q) (s : CanvasState)
  : CanvasState :=
  match containerRef dom with
  | None => s
  | Some c =>
      let containerWidth := clientWidth c in
      let containerHeight := clientHeight c in
      let newX := (containerWidth - width) / 2 in
      let newY := (containerHeight - height) / 2 in
      setCanvasRect (mkRect newX newY width height) s
  end.

Definition clearMask (dom : Dom) (s : CanvasState) : CanvasState :=
  if maskContext dom then setMaskCanvas [] s else s.

Definition reset (dom : Dom) (s : CanvasState) : outcome CanvasState :=
  match imageEl s with
  | Some img =>
      initialRect <- fitImageToContainer dom img ;;
      Ret (redrawCanvas dom
             (setCanvasRect initialRect (setImageDrawRect initialRect s)))
  | None => Ret s
  end.

(** ** The host: [EditPane] *)

Module EditPane.

(** The state of the pane the canvas handlers depend on (the prompts of the
    other tools are left out), with the state of the [ImageCanvas] it
    renders: [canvasRef] is [None] while no canvas is mounted. *)
Record State : Type := mkPane {
  image : option string;
  originalImage : option string;
  prompt : string;
  brushSize : Q;
  brushOpacity : Q;
  brushHardness : Q;
  resizeWidth : Q;
  resizeHeight : Q;
  activeTool : option EditTool;
  isLoading : bool;
  error : option string;
  loadingMessage : string;
  canvasRef : option CanvasState
}.

Definition setImage (v : option string) (s : State) :=
  mkPane v (originalImage s) (prompt s) (brushSize s) (brushOpacity s)
         (brushHardness s) (resizeWidth s) (resizeHeight s) (activeTool s)
         (isLoading s) (error s) (loadingMessage s) (canvasRef s).
Definition setPrompt (v : string) (s : State) :=
  mkPane (image s) (originalImage s) v (brushSize s) (brushOpacity s)
         (brushHardness s) (resizeWidth s) (resizeHeight s) (activeTool s)
         (isLoading s) (error s) (loadingMessage s) (canvasRef s).
Definition setActiveTool (v : option EditTool) (s : State) :=
  mkPane (image s) (originalImage s) (prompt s) (brushSize s) (brushOpacity s)
         (brushHardness s) (resizeWidth s) (resizeHeight s) v
         (isLoading s) (error s) (loadingMessage s) (canvasRef s).
Definition setIsLoading (v : bool) (s : State) :=
  mkPane (image s) (originalImage s) (prompt s) (brushSize s) (brushOpacity s)
         (brushHardness s) (resizeWidth s) (resizeHeight s) (activeTool s)
         v (error s) (loadingMessage s) (canvasRef s).
Definition setError (v : option string) (s : State) :=
  mkPane (image s) (originalImage s) (prompt s) (brushSize s) (brushOpacity s)
         (brushHardness s) (resizeWidth s) (resizeHeight s) (activeTool s)
         (isLoading s) v (loadingMessage s) (canvasRef s).
Definition setLoadingMessage (v : string) (s : State) :=
  mkPane (image s) (originalImage s) (prompt s) (brushSize s) (brushOpacity s)
         (brushHardness s) (resizeWidth s) (resizeHeight s) (activeTool s)
         (isLoading s) (error s) v (canvasRef s).
Definition setCanvas (v : option CanvasState) (s : State) :=
  mkPane (image s) (originalImage s) (prompt s) (brushSize s) (brushOpacity s)
         (brushHardness s) (resizeWidth s) (resizeHeight s) (activeTool s)
         (isLoading s) (error s) (loadingMessage s) v.

(** The props the pane passes to its canvas, for the image [img]. *)
Definition canvasProps (img : string) (s : State) : Props :=
  mkProps img (brushSize s) (brushOpacity s) (brushHardness s)
    (if activeTool_is (activeTool s) inpainting
        || activeTool_is (activeTool s) expand
        || activeTool_is (activeTool s) resize
     then activeTool s else None).


Definition handleToggleTool (tool : EditTool) (s : State) : State :=
  setActiveTool (if activeTool_is (activeTool s) tool then None else Some tool) s.


(** White space, as far as one-byte characters go. *)
Definition isWhiteSpace (c : ascii) : bool :=
  let n := nat_of_ascii c in
  (Nat.eqb n 32 || (Nat.leb 9 n && Nat.leb n 13))%bool.

(** The white space [trim] strips that takes two bytes: U+00A0. *)
Definition isWhiteSpace2 (c1 c2 : ascii) : bool :=
  (Nat.eqb (nat_of_ascii c1) 194 && Nat.eqb (nat_of_ascii c2) 160)%bool.

(** The white space [trim] strips that takes three bytes: U+1680,
    U+2000 to U+200A, U+2028, U+2029, U+202F, U+205F, U+3000 and U+FEFF. *)
Definition isWhiteSpace3 (c1 c2 c3 : ascii) : bool :=
  let n1 := nat_of_ascii c1 in
  let n2 := nat_of_ascii c2 in
  let n3 := nat_of_ascii c3 in
  ((Nat.eqb n1 225 && Nat.eqb n2 154 && Nat.eqb n3 128)
   || (Nat.eqb n1 226 && Nat.eqb n2 128
       && ((Nat.leb 128 n3 && Nat.leb n3 138)
           || Nat.eqb n3 168 || Nat.eqb n3 169 || Nat.eqb n3 175))
   || (Nat.eqb n1 226 && Nat.eqb n2 129 && Nat.eqb n3 159)
   || (Nat.eqb n1 227 && Nat.eqb n2 128 && Nat.eqb n3 128)
   || (Nat.eqb n1 239 && Nat.eqb n2 187 && Nat.eqb n3 191))%bool.

(** [!str.trim()]: nothing but white space. *)
Fixpoint isBlank (str : string) : bool :=
  match str with
  | EmptyString => true
  | String c1 rest1 =>
      if isWhiteSpace c1 then isBlank rest1
      else
        match rest1 with
        | EmptyString => false
        | String c2 rest2 =>
            if isWhiteSpace2 c1 c2 then isBlank rest2
            else
              match rest2 with
              | EmptyString => false
              | String c3 rest3 =>
                  if isWhiteSpace3 c1 c2 c3 then isBlank rest3 else false
              end
        end
  end.

Fixpoint toLowerCase (str : string) : string :=
  match str with
  | EmptyString => EmptyString
  | String c rest =>
      let n := nat_of_ascii c in
      String (if (Nat.leb 65 n && Nat.leb n 90)%bool then ascii_of_nat (n + 32) else c)
             (toLowerCase rest)
  end.

(** [str.replace('...', '')]: the first occurrence only. *)
Fixpoint dropEllipsis (str : string) : string :=
  match str with
  | EmptyString => EmptyString
  | String c rest =>
      if prefix "..." str then substring 3 (String.length str - 3) str
      else String c (dropEllipsis rest)
  end.

Definition failureMessage (message : string) : string :=
  ("Failed to " ++ dropEllipsis (toLowerCase message) ++ ". Please try again.")%string.

(** [executeEditAction(action, message)], run to completion.  The action
    either returns the new image with the state it leaves, or throws before
    it changed anything. *)
Definition executeEditAction (action : State -> outcome (string * State))
  (message : string) (s : State) : outcome State :=
  match truthy (image s) with
  | None => Ret s
  | Some _ =>
      let s := setError None (setLoadingMessage message (setIsLoading true s)) in
      match action s with
      | Ret (result, s') => Ret (setIsLoading false (setImage (Some result) s'))
      | Throw _ => Ret (setIsLoading false (setError (Some (failureMessage message)) s))
      | Outside => Outside
      end
  end.

Definition editPrompt (prompt : string) : string :=
  ("In the image provided, the area marked in magenta must be replaced with: "
   ++ String (ascii_of_nat 34) prompt ++ String (ascii_of_nat 34)
   ". The replacement must be photorealistic and seamlessly blended. CRUCIAL: The new content must perfectly match the ambient lighting, shadows, color grading, grain, and texture of the surrounding original image to create a completely realistic and undetectable edit. Do not leave any magenta artifacts.")%string.

Section Service.

(** The remote call [editImage(image, mimeType, prompt)] of the service: it
    returns the new image or throws. *)
Variable editImage : DataURL -> string -> string -> outcome string.

Definition handleEdit (dom : Dom) (s : State) : outcome State :=
  match canvasRef s with
  | None => Ret s
  | Some _ =>
      if isBlank (prompt s) then Ret s
      else
        executeEditAction
          (fun s =>
             match canvasRef s, image s with
             | Some c, Some img =>
                 composite <- getCompositeImageWithMask (canvasProps img s) dom c ;;
                 result <- editImage (payload composite) (mimeType composite)
                             (editPrompt (prompt s)) ;;
                 let s := setCanvas (Some (clearMask dom c)) s in
                 let s := setPrompt "" s in
                 Ret (result, s)
             | _, _ => Throw "TypeError"
             end)
          "Applying edits..." s
  end.

End Service.

End EditPane.

(** ** A session to test against

    A 400 x 400 container, an 800 x 600 jpeg fitted in it, the paint tool
    active with the default brush, and one press of the pointer at
    (110, 120), which leaves one stamp on the mask. *)
Module Session.

Definition dom : Dom := mkDom (Some (mkContainer 400 400 0 0)) true.

Definition jpeg : string := "data:image/jpeg;base64,AAAA".

Definition loaded : CanvasState :=
  mkCanvas (Some (mkImage 800 600)) false None (mkPoint (-100) (-100)) None
           (mkRect 0 50 400 300) (mkRect 0 50 400 300) [].

Definition brush : Props := mkProps jpeg 40 (7 # 10) 1 (Some inpainting).

Definition painted : CanvasState :=
  mkCanvas (Some (mkImage 800 600)) true (Some (mkPoint 110 120))
           (mkPoint (-100) (-100)) None
           (mkRect 0 50 400 300) (mkRect 0 50 400 300)
           [softCircle brush 110 120].

(** The pane around a canvas, with a prompt typed in. *)
Definition pane (c : CanvasState) : EditPane.State :=
  EditPane.mkPane (Some jpeg) (Some jpeg) "a red door" 40 (7 # 10) 1
                  1024 1024 (Some inpainting) false None "" (Some c).

End Session.

(** A prompt of a space, a no-break space (U+00A0) and an ideographic space
    (U+3000), in UTF-8. *)
Definition noBreakSpaces : string :=
  String " " (String (ascii_of_nat 194) (String (ascii_of_nat 160)
    (String (ascii_of_nat 227) (String (ascii_of_nat 128) (String (ascii_of_nat 128)
       EmptyString))))).

(** ** Whole gestures and sessions *)

Section PaintGesture.

Variable Math_hypot : Q -> Q -> Q.
Variable Math_atan2 : Q -> Q -> Q.
Variable Math_cos : Q -> Q.
Variable Math_sin : Q -> Q.

(** The pointer moves over the container, one [draw] for each. *)
Fixpoint drawMoves (p : Props) (dom : Dom) (moves : list MouseEvent)
  (s : CanvasState) : outcome CanvasState :=
  match moves with
  | [] => Ret s
  | e :: rest =>
      s' <- draw Math_hypot Math_atan2 Math_cos Math_sin p dom e s ;;
      drawMoves p dom rest s'
  end.

(** One paint gesture: the pointer goes down at [e0], then moves. *)
Definition paintGesture (p : Props) (dom : Dom) (e0 : MouseEvent)
  (moves : list MouseEvent) (s : CanvasState) : outcome CanvasState :=
  s1 <- startDrawing p dom e0 s ;;
  drawMoves p dom moves s1.

End PaintGesture.

(** The three ways the canvas is refitted: a load, a window resize, a reset. *)
Definition refitted (dom : Dom) (img : HTMLImageElement) (s s' : CanvasState) : Prop :=
  onload dom img s = Ret s' \/
  (imageEl s = Some img /\ (handleResize dom s = Ret s' \/ reset dom s = Ret s')).

(** The state the load of the 800 x 600 image leaves in the 400 x 400
    container of [Session]. *)
Definition fittedSession : CanvasState :=
  let r := mkRect ((400 - 400) / 2) ((400 - 400 / (800 / 600)) / 2)
                  400 (400 / (800 / 600)) in
  mkCanvas (Some (mkImage 800 600)) false None (mkPoint (-100) (-100)) None r r [].

(** A stamp laid by the brush [p]. *)
Definition brushStamp (p : Props) (st : Stamp) : Prop :=
  radius st = brushSize p / 2 /\ r1 (fillStyle st) = brushSize p / 2.

(** ** [services/geminiService.ts]: what does not go over the network *)

Module GeminiService.

(** [s.split(sep)] for a one-character separator. *)
Fixpoint split (sep : ascii) (s : string) : list string :=
  match s with
  | EmptyString => [EmptyString]
  | String c s' =>
      if Ascii.eqb c sep then EmptyString :: split sep s'
      else match split sep s' with
           | [] => [String c EmptyString]
           | piece :: pieces => String c piece :: pieces
           end
  end.

(** [base64Image.split(',')[1]], the [data] of the image part of a request;
    [None] is [undefined]. *)
Definition inlineDataOf (base64Image : string) : option string :=
  nth_error (split "," base64Image) 1.

(** A part of a response: its [inlineData], if it has one, as
    [(mimeType, data)]. *)
Record Part : Type := mkPart { inlineData : option (string * string) }.

(** [`data:${mimeType};base64,${data}`]. *)
Definition dataUrl (mimeType data : string) : string :=
  ("data:" ++ mimeType ++ ";base64," ++ data)%string.

(** The loop over the parts of the response of [editImage] and
    [generateFromDoodle], and the [throw] after it. *)
Fixpoint imageOfParts (failure : string) (parts : list Part) : outcome string :=
  match parts with
  | [] => Throw failure
  | part :: rest =>
      match inlineData part with
      | Some (mimeType, data) => Ret (dataUrl mimeType data)
      | None => imageOfParts failure rest
      end
  end.

Definition editImageResult (parts : list Part) : outcome string :=
  imageOfParts "Image editing failed or returned no image data." parts.

Definition generateFromDoodleResult (parts : list Part) : outcome string :=
  imageOfParts "Doodle generation failed or returned no image data." parts.

End GeminiService.

(** ** More of [EditPane] *)

Module EditActions.

(** [image.split(';')[0].split(':')[1]], the MIME type the handlers of the
    whole-image tools send; [None] is [undefined]. *)
Definition mimeTypeOf (image : string) : option string :=
  match GeminiService.split ";" image with
  | [] => None
  | head :: _ => nth_error (GeminiService.split ":" head) 1
  end.

Definition expandPrompt : string :=
  "This is an image that has been expanded. The transparent area needs to be filled. Please complete the image by realistically extending the existing scene into the transparent region. Ensure the transition is seamless and the style is consistent with the original image.".

Section Service.

Variable editImage : DataURL -> string -> string -> outcome string.

Definition handleExpand (dom : Dom) (s : EditPane.State) : outcome EditPane.State :=
  match EditPane.canvasRef s with
  | None => Ret s
  | Some _ =>
      EditPane.executeEditAction
        (fun s =>
           match EditPane.canvasRef s with
           | Some c =>
               expanded <- getFinalExpandedImage dom c ;;
               result <- editImage (payload expanded) (mimeType expanded) expandPrompt ;;
               Ret (result, s)
           | None => Throw "TypeError"
           end)
        "Expanding image..." s
  end.

End Service.

End EditActions.

(** ** [App.tsx]: the mode and the image in edit *)

Module App.

(** [Mode] of [types.ts]. *)
Inductive Mode : Type := generate | edit | doodle | mockup | vectorize.

Definition Mode_eqb (a b : Mode) : bool :=
  match a, b with
  | generate, generate | edit, edit | doodle, doodle
  | mockup, mockup | vectorize, vectorize => true
  | _, _ => false
  end.

Record State : Type := mkApp { mode : Mode; currentImage : option string }.

Definition initial : State := mkApp generate None.

Definition handleModeChange (newMode : Mode) (s : State) : State :=
  let s := mkApp newMode (currentImage s) in
  if negb (Mode_eqb newMode edit) then mkApp (mode s) None else s.

Definition handleImageReadyForEdit (imageUrl : string) (s : State) : State :=
  mkApp edit (Some imageUrl).

Inductive Event : Type :=
| ModeChange (newMode : Mode)
| ImageReady (imageUrl : string).

Definition step (s : State) (ev : Event) : State :=
  match ev with
  | ModeChange m => handleModeChange m s
  | ImageReady url => handleImageReadyForEdit url s
  end.

Definition run (evs : list Event) : State := fold_left step evs initial.

End App.

(** ** [DrawingCanvas.tsx]: the freehand sketch canvas *)

Module DrawingCanvas.

(** The canvas element: the origin of its bounding rectangle, and whether
    [getContext('2d')] returns a context. *)
Record CanvasEl : Type := mkCanvasEl { rectLeft : Q; rectTop : Q; context2d : bool }.

(** A mouse event, or a touch event with its [touches]. *)
Inductive PointerEvent : Type :=
| mouse (clientX clientY : Q)
| touch (touches : list (Q * Q)).

(** One [moveTo] - [lineTo] - [stroke]. *)
Record Segment : Type := mkSegment { from : Point; to : Point }.

Record State : Type := mkSketch {
  isDrawing : bool;
  lastPoint : option Point;
  (* the bitmap: the segments stroked since it was last cleared *)
  ink : list Segment
}.

Definition getCoords (canvasRef : option CanvasEl) (e : PointerEvent) : outcome Point :=
  match canvasRef with
  | None => Ret (mkPoint 0 0)
  | Some canvas =>
      match e with
      | mouse cx cy => Ret (mkPoint (cx - rectLeft canvas) (cy - rectTop canvas))
      | touch [] => Throw "TypeError"
      | touch ((cx, cy) :: _) =>
          Ret (mkPoint (cx - rectLeft canvas) (cy - rectTop canvas))
      end
  end.

Definition startDrawing (canvasRef : option CanvasEl) (e : PointerEvent) (s : State)
  : outcome State :=
  pos <- getCoords canvasRef e ;;
  Ret (mkSketch true (Some pos) (ink s)).

Definition stopDrawing (s : State) : State := mkSketch false None (ink s).

Definition draw (canvasRef : option CanvasEl) (e : PointerEvent) (s : State)
  : outcome State :=
  if negb (isDrawing s) then Ret s
  else
    currentPos <- getCoords canvasRef e ;;
    let context :=
      match canvasRef with
      | Some canvas => context2d canvas
      | None => false
      end in
    let inked :=
      match context, lastPoint s with
      | true, Some last => ink s ++ [mkSegment last currentPos]
      | _, _ => ink s
      end in
    Ret (mkSketch (isDrawing s) (Some currentPos) inked).

Definition clearCanvas (canvasRef : option CanvasEl) (s : State) : State :=
  match canvasRef with
  | Some canvas =>
      if context2d canvas then mkSketch (isDrawing s) (lastPoint s) [] else s
  | None => s
  end.

(** [getCanvasData()]: the ink encoded ([None] is the empty string returned
    when there is no canvas) and the MIME type. *)
Definition getCanvasData (canvasRef : option CanvasEl) (s : State)
  : option (list Segment) * string :=
  match canvasRef with
  | None => (None, "image/png"%string)
  | Some _ => (Some (ink s), "image/png"%string)
  end.

Fixpoint drawMoves (canvasRef : option CanvasEl) (moves : list PointerEvent)
  (s : State) : outcome State :=
  match moves with
  | [] => Ret s
  | e :: rest =>
      s' <- draw canvasRef e s ;;
      drawMoves canvasRef rest s'
  end.

(** The segments joining each point of a path to the next. *)
Fixpoint chain (start : Point) (path : list Point) : list Segment :=
  match path with
  | [] => []
  | p :: rest => mkSegment start p :: chain p rest
  end.

End DrawingCanvas.

(** ** The aspect-ratio preset in binary64 *)

(** The load handler and [setAspectRatio] once more, over the numbers the
    program computes with: every [number] is a binary64 float and every
    operation rounds to nearest, ties to even.  Nothing leaves this model
    through a division: dividing by zero gives an infinity or [NaN], as in
    JavaScript. *)
Module Double.

#[local] Open Scope float_scope.

Record Rect : Type := mkRect { x : float; y : float; width : float; height : float }.

Record HTMLImageElement : Type := mkImage {
  naturalWidth : float;
  naturalHeight : float
}.

Record Container : Type := mkContainer {
  clientWidth : float;
  clientHeight : float
}.

Definition fitImageToContainer (containerRef : option Container) (img : HTMLImageElement)
  : Rect :=
  match containerRef with
  | None => mkRect 0 0 0 0
  | Some c =>
      let containerWidth := clientWidth c in
      let containerHeight := clientHeight c in
      let imageRatio := naturalWidth img / naturalHeight img in
      let fitWidth0 := containerWidth in
      let fitHeight0 := containerWidth / imageRatio in
      let '(fitWidth, fitHeight) :=
        if containerHeight <? fitHeight0
        then (containerHeight * imageRatio, containerHeight)
        else (fitWidth0, fitHeight0) in
      let fitX := (containerWidth - fitWidth) / 2 in
      let fitY := (containerHeight - fitHeight) / 2 in
      mkRect fitX fitY fitWidth fitHeight
  end.

(** The part of the component state that [img.onload] and [setAspectRatio]
    read and write. *)
Record CanvasState : Type := mkCanvas {
  imageEl : option HTMLImageElement;
  canvasRect : Rect;
  imageDrawRect : Rect
}.

Definition initialCanvas : CanvasState :=
  mkCanvas None (mkRect 0 0 0 0) (mkRect 0 0 0 0).

Definition setImageEl (v : option HTMLImageElement) (s : CanvasState) :=
  mkCanvas v (canvasRect s) (imageDrawRect s).
Definition setCanvasRect (v : Rect) (s : CanvasState) :=
  mkCanvas (imageEl s) v (imageDrawRect s).
Definition setImageDrawRect (v : Rect) (s : CanvasState) :=
  mkCanvas (imageEl s) (canvasRect s) v.

Definition onload (containerRef : option Container) (img : HTMLImageElement)
  (s : CanvasState) : CanvasState :=
  let initialRect := fitImageToContainer containerRef img in
  setCanvasRect initialRect (setImageDrawRect initialRect (setImageEl (Some img) s)).

(** [Number(s)] on the strings made of decimal digits only: the float
    nearest to the number written. *)
Definition Number (s : string) : outcome float :=
  match NilEmpty.uint_of_string s with
  | Some d => Ret (SF2Prim (binary_normalize prec emax (Z.of_N (N.of_uint d)) 0 false))
  | None => Outside
  end.

Definition parseRatio (ratioStr : string) : outcome (float * float) :=
  match map Number (split_colon ratioStr) with
  | w :: h :: _ =>
      w <- w ;;
      h <- h ;;
      Ret (w, h)
  | _ => Outside
  end.

Definition setAspectRatio (ratioStr : string) (s : CanvasState) : outcome CanvasState :=
  match imageEl s with
  | None => Ret s
  | Some _ =>
      wh <- parseRatio ratioStr ;;
      let '(w, h) := wh in
      let targetRatio := w / h in
      let imgRatio := width (imageDrawRect s) / height (imageDrawRect s) in
      let '(newW, newH) :=
        if imgRatio <? targetRatio then
          let newH := height (imageDrawRect s) in
          (newH * targetRatio, newH)
        else
          let newW := width (imageDrawRect s) in
          (newW, newW / targetRatio) in
      let newX := x (imageDrawRect s) - (newW - width (imageDrawRect s)) / 2 in
      let newY := y (imageDrawRect s) - (newH - height (imageDrawRect s)) / 2 in
      Ret (setCanvasRect (mkRect newX newY newW newH) s)
  end.

End Double.



(** * Properties *)

(** ** Numbers *)

Lemma Qltb_lt (a b : Q) : Qltb a b = true <-> a < b.
Proof.
  unfold Qltb. rewrite negb_true_iff.
  split; intro H.
  - apply Qnot_le_lt. intro Hle. apply Qle_bool_iff in Hle. congruence.
  - destruct (Qle_bool b a) eqn:E; [|reflexivity].
    apply Qle_bool_iff in E. exfalso. apply (Qlt_not_le _ _ H E).
Qed.

Lemma Qltb_ge (a b : Q) : Qltb a b = false <-> b <= a.
Proof.
  unfold Qltb. rewrite negb_false_iff. apply Qle_bool_iff.
Qed.

Lemma jsdiv_Ret (a b : Q) : ~ b == 0 -> jsdiv a b = Ret (a / b).
Proof.
  intro Hb. unfold jsdiv.
  destruct (Qeq_bool b 0) eqn:E; [|reflexivity].
  apply Qeq_bool_iff in E. contradiction.
Qed.

Lemma Qhalf (a : Q) : a / 2 == a * (1 # 2).
Proof. reflexivity. Qed.

(** Comparisons of closed numbers, by evaluation. *)
Ltac qeval := vm_compute; first [reflexivity | discriminate].

(** Linear arithmetic, once the halvings are written as products. *)
Ltac qlra := rewrite ?Qhalf in *; lra.

Lemma Math_max_ge_r (a b : Q) : b <= Math_max a b.
Proof. apply Q.le_max_r. Qed.

Lemma Math_max_ge_l (a b : Q) : a <= Math_max a b.
Proof. apply Q.le_max_l. Qed.

Lemma Math_max_pinned (a b : Q) : a <= b -> Math_max a b == b.
Proof. apply Q.max_r. Qed.

Lemma Math_max_free (a b : Q) : b <= a -> Math_max a b == a.
Proof. apply Q.max_l. Qed.

(** ** The drag-handle controller *)

Lemma dragUpdate_width (h : string) (ptrX ptrY : Q) (prev : Rect) :
  width (dragUpdate h ptrX ptrY prev) =
  Math_max
    (if includes h "l"
     then (if includes h "r" then ptrX - x prev else width prev) + (x prev - ptrX)
     else if includes h "r" then ptrX - x prev else width prev)
    (HANDLE_SIZE * 2).
Proof.
  unfold dragUpdate.
  destruct (includes h "l"), (includes h "r"), (includes h "t"), (includes h "b");
    reflexivity.
Qed.

Lemma dragUpdate_height (h : string) (ptrX ptrY : Q) (prev : Rect) :
  height (dragUpdate h ptrX ptrY prev) =
  Math_max
    (if includes h "t"
     then (if includes h "b" then ptrY - y prev else height prev) + (y prev - ptrY)
     else if includes h "b" then ptrY - y prev else height prev)
    (HANDLE_SIZE * 2).
Proof.
  unfold dragUpdate.
  destruct (includes h "l"), (includes h "r"), (includes h "t"), (includes h "b");
    reflexivity.
Qed.

Lemma dragUpdate_x (h : string) (ptrX ptrY : Q) (prev : Rect) :
  x (dragUpdate h ptrX ptrY prev) = if includes h "l" then ptrX else x prev.
Proof.
  unfold dragUpdate.
  destruct (includes h "l"), (includes h "r"), (includes h "t"), (includes h "b");
    reflexivity.
Qed.

Lemma dragUpdate_y (h : string) (ptrX ptrY : Q) (prev : Rect) :
  y (dragUpdate h ptrX ptrY prev) = if includes h "t" then ptrY else y prev.
Proof.
  unfold dragUpdate.
  destruct (includes h "l"), (includes h "r"), (includes h "t"), (includes h "b");
    reflexivity.
Qed.









(** C9.  A drag on a handle whose name contains [l] sets [x] to the pointer
    abscissa, and one whose name contains [t] sets [y] to the pointer
    ordinate, whether or not the clamp fires; on the other handles [x] (resp.
    [y]) is kept.  The clamp acts on width and height only: once the pointer
    is within [2 * HANDLE_SIZE] of the opposite edge, or past it, the width
    (resp. height) is pinned at [2 * HANDLE_SIZE] while the rectangle keeps
    following the pointer. *)
Theorem drag_left_top_follow_pointer :
  forall (h : string) (ptrX ptrY : Q) (prev : Rect),
    x (dragUpdate h ptrX ptrY prev) = (if includes h "l" then ptrX else x prev) /\
    y (dragUpdate h ptrX ptrY prev) = (if includes h "t" then ptrY else y prev) /\
    (includes h "l" = true ->
     x prev + width prev - 2 * HANDLE_SIZE <= ptrX ->
     x (dragUpdate h ptrX ptrY prev) = ptrX /\
     width (dragUpdate h ptrX ptrY prev) == 2 * HANDLE_SIZE) /\
    (includes h "t" = true ->
     y prev + height prev - 2 * HANDLE_SIZE <= ptrY ->
     y (dragUpdate h ptrX ptrY prev) = ptrY /\
     height (dragUpdate h ptrX ptrY prev) == 2 * HANDLE_SIZE).
Proof.
  intros h ptrX ptrY prev.
  split; [apply dragUpdate_x|].
  split; [apply dragUpdate_y|].
  split.
  - intros Hl Hpast. rewrite dragUpdate_x, dragUpdate_width, Hl.
    split; [reflexivity|].
    rewrite Math_max_pinned; [unfold HANDLE_SIZE; lra|].
    unfold HANDLE_SIZE in *. destruct (includes h "r"); lra.
  - intros Ht Hpast. rewrite dragUpdate_y, dragUpdate_height, Ht.
    split; [reflexivity|].
    rewrite Math_max_pinned; [unfold HANDLE_SIZE; lra|].
    unfold HANDLE_SIZE in *. destruct (includes h "b"); lra.
Qed.

Lemma drag_left_top_follow_pointer_witness :
  (x (dragUpdate "tl" 200 300 (mkRect 0 0 100 100)) = 200 /\
   width (dragUpdate "tl" 200 300 (mkRect 0 0 100 100)) == 2 * HANDLE_SIZE) /\
  (y (dragUpdate "tl" 200 300 (mkRect 0 0 100 100)) = 300 /\
   height (dragUpdate "tl" 200 300 (mkRect 0 0 100 100)) == 2 * HANDLE_SIZE).
Proof.
  destruct (drag_left_top_follow_pointer "tl" 200 300 (mkRect 0 0 100 100))
    as (_ & _ & Hl & Ht).
  split.
  - apply Hl; [reflexivity | vm_compute; discriminate].
  - apply Ht; [reflexivity | vm_compute; discriminate].
Defined.

(** ** Aspect fit *)

Lemma fitImageToContainer_eq (Wc Hc l t Wi Hi : Q) (ok : bool) :
  0 < Wi -> 0 < Hi -> 0 < Wc ->
  fitImageToContainer (mkDom (Some (mkContainer Wc Hc l t)) ok) (mkImage Wi Hi) =
  Ret (if Qgtb (Wc / (Wi / Hi)) Hc
       then mkRect ((Wc - Hc * (Wi / Hi)) / 2) ((Hc - Hc) / 2) (Hc * (Wi / Hi)) Hc
       else mkRect ((Wc - Wc) / 2) ((Hc - Wc / (Wi / Hi)) / 2) Wc (Wc / (Wi / Hi))).
Proof.
  intros HWi HHi HWc.
  assert (Hr : 0 < Wi / Hi) by (apply Qlt_shift_div_l; lra).
  unfold fitImageToContainer; simpl.
  rewrite jsdiv_Ret by lra. simpl.
  rewrite jsdiv_Ret by lra. simpl.
  destruct (Qgtb (Wc / (Wi / Hi)) Hc); reflexivity.
Qed.

Lemma centred_contains (Wc Hc w h : Q) :
  0 <= w -> w <= Wc -> 0 <= h -> h <= Hc ->
  contains (mkRect 0 0 Wc Hc) (mkRect ((Wc - w) / 2) ((Hc - h) / 2) w h).
Proof.
  intros. unfold contains; cbn [x y width height]. repeat split; qlra.
Qed.

(** C2.  In a container of positive size [Wc x Hc], an image of natural size
    [Wi x Hi] is fitted to a rectangle of ratio exactly [Wi / Hi], contained
    in the container and centred in it; it is the candidate [Wc] by
    [Wc / (Wi / Hi)] unless that is higher than [Hc], and then
    [Hc * (Wi / Hi)] by [Hc].  An 800 x 600 image in a 400 x 400 container
    gets [{0, 50, 400, 300}]. *)
Theorem fitImageToContainer_aspect_fit :
  forall (Wc Hc l t Wi Hi : Q) (ok : bool),
    0 < Wc -> 0 < Hc -> 0 < Wi -> 0 < Hi ->
    exists r : Rect,
      fitImageToContainer (mkDom (Some (mkContainer Wc Hc l t)) ok) (mkImage Wi Hi)
      = Ret r /\
      width r / height r == Wi / Hi /\
      contains (mkRect 0 0 Wc Hc) r /\
      x r == (Wc - width r) / 2 /\
      y r == (Hc - height r) / 2 /\
      (Hc < Wc / (Wi / Hi) -> height r == Hc /\ width r == Hc * (Wi / Hi)) /\
      (Wc / (Wi / Hi) <= Hc -> width r == Wc /\ height r == Wc / (Wi / Hi)) /\
      (Wc == 400 -> Hc == 400 -> Wi == 800 -> Hi == 600 ->
       Rect_eq r (mkRect 0 50 400 300)).
Proof.
  intros Wc Hc l t Wi Hi ok HWc HHc HWi HHi.
  assert (Hr : 0 < Wi / Hi) by (apply Qlt_shift_div_l; lra).
  assert (Hcand : Wc / (Wi / Hi) * (Wi / Hi) == Wc) by (field; split; lra).
  assert (Hcpos : 0 < Wc / (Wi / Hi)) by (apply Qlt_shift_div_l; lra).
  rewrite fitImageToContainer_eq by assumption.
  destruct (Qgtb (Wc / (Wi / Hi)) Hc) eqn:E.
  - apply Qltb_lt in E.
    assert (Hfit : Hc * (Wi / Hi) < Wc).
    { apply Qlt_le_trans with (Wc / (Wi / Hi) * (Wi / Hi)).
      - apply Qmult_lt_compat_r; assumption.
      - rewrite Hcand. apply Qle_refl. }
    assert (Hpos : 0 < Hc * (Wi / Hi)) by (apply Qmult_lt_0_compat; assumption).
    eexists; split; [reflexivity|]; cbn [x y width height].
    split; [field; split; lra|].
    split.
    { apply centred_contains; lra. }
    split; [reflexivity|]. split; [reflexivity|].
    split; [intros _; split; reflexivity|].
    split; [intro Hle; exfalso; apply (Qlt_not_le _ _ E Hle)|].
    intros E1 E2 E3 E4. exfalso.
    rewrite E1, E2, E3, E4 in E. revert E. vm_compute. discriminate.
  - apply Qltb_ge in E.
    eexists; split; [reflexivity|]; cbn [x y width height].
    split; [field; repeat split; lra|].
    split.
    { apply centred_contains; lra. }
    split; [reflexivity|]. split; [reflexivity|].
    split; [intro Hlt; exfalso; apply (Qlt_not_le _ _ Hlt E)|].
    split; [intros _; split; reflexivity|].
    intros E1 E2 E3 E4. unfold Rect_eq; cbn [x y width height].
    rewrite E1, E2, E3, E4. repeat split; vm_compute; reflexivity.
Qed.

Lemma fitImageToContainer_aspect_fit_witness :
  exists r : Rect,
    fitImageToContainer (mkDom (Some (mkContainer 400 400 0 0)) true) (mkImage 800 600)
    = Ret r /\
    width r / height r == 800 / 600 /\
    contains (mkRect 0 0 400 400) r /\
    Rect_eq r (mkRect 0 50 400 300).
Proof.
  destruct (fitImageToContainer_aspect_fit 400 400 0 0 800 600 true)
    as (r & Hfit & Hratio & Hin & _ & _ & _ & _ & Hscen);
    try reflexivity.
  exists r.
  split; [exact Hfit|]. split; [exact Hratio|]. split; [exact Hin|].
  apply Hscen; reflexivity.
Defined.

(** ** Aspect-ratio presets *)



Lemma digits_no_colon (d : Decimal.uint) :
  includes (NilEmpty.string_of_uint d) ":" = false.
Proof. induction d; simpl; auto. Qed.

Lemma split_colon_whole (s : string) :
  includes s ":" = false -> split_colon s = [s].
Proof.
  induction s as [|c s IH]; simpl; [reflexivity|].
  intro H. apply orb_false_iff in H. destruct H as [Hc Hs].
  rewrite Hc, (IH Hs). reflexivity.
Qed.

Lemma split_colon_first (a b : string) :
  includes a ":" = false ->
  split_colon (a ++ String ":" b) = a :: split_colon b.
Proof.
  induction a as [|c a IH]; simpl; [reflexivity|].
  intro H. apply orb_false_iff in H. destruct H as [Hc Ha].
  rewrite Hc, (IH Ha). reflexivity.
Qed.

Lemma Number_digits (n : N) :
  Number (NilEmpty.string_of_uint (N.to_uint n)) = Ret (inject_Z (Z.of_N n)).
Proof.
  unfold Number. rewrite NilEmpty.usu, DecimalN.Unsigned.of_to. reflexivity.
Qed.

(** Every ratio string ['W:H'] is read as [W] and [H]. *)
Lemma parseRatio_ratioString (W H : N) :
  parseRatio (ratioString W H) = Ret (inject_Z (Z.of_N W), inject_Z (Z.of_N H)).
Proof.
  unfold parseRatio, ratioString.
  change (":" ++ NilEmpty.string_of_uint (N.to_uint H))%string
    with (String ":" (NilEmpty.string_of_uint (N.to_uint H))).
  rewrite split_colon_first by apply digits_no_colon.
  rewrite split_colon_whole by apply digits_no_colon.
  simpl. rewrite !Number_digits. reflexivity.
Qed.

Example ASPECT_RATIOS_parse :
  map parseRatio ASPECT_RATIOS =
  [Ret (1, 1); Ret (16, 9); Ret (9, 16); Ret (4, 3); Ret (3, 4)].
Proof. reflexivity. Qed.


(** *** As computed *)





(** Every ratio string ['W:H'] is read as the doubles nearest to [W] and
    [H]; the presets are read exactly. *)
Lemma Double_parseRatio_ratioString (W H : N) :
  Double.parseRatio (ratioString W H) =
  Ret (SF2Prim (binary_normalize prec emax (Z.of_N W) 0 false),
       SF2Prim (binary_normalize prec emax (Z.of_N H) 0 false)).
Proof.
  unfold Double.parseRatio, ratioString.
  change (":" ++ NilEmpty.string_of_uint (N.to_uint H))%string
    with (String ":" (NilEmpty.string_of_uint (N.to_uint H))).
  rewrite split_colon_first by apply digits_no_colon.
  rewrite split_colon_whole by apply digits_no_colon.
  cbn [map]. unfold Double.Number.
  rewrite !NilEmpty.usu, !DecimalN.Unsigned.of_to. reflexivity.
Qed.

Example Double_ASPECT_RATIOS_parse :
  map Double.parseRatio ASPECT_RATIOS =
  [Ret (1, 1); Ret (16, 9); Ret (9, 16); Ret (4, 3); Ret (3, 4)]%float.
Proof. vm_compute. reflexivity. Qed.




(** ** Exports *)

Lemma getCompositeImageWithMask_size (p : Props) (dom : Dom) (s : CanvasState)
  (e : Export) :
  getCompositeImageWithMask p dom s = Ret e ->
  exists img : HTMLImageElement,
    imageEl s = Some img /\
    outWidth (source (payload e)) = naturalWidth img /\
    outHeight (source (payload e)) = naturalHeight img /\
    encoding (payload e) = mimeType e /\
    mimeType e = (if prefix "data:image/jpeg" (src p)
                  then "image/jpeg" else "image/png")%string.
Proof.
  unfold getCompositeImageWithMask.
  destruct (imageEl s) as [img|]; [|discriminate].
  destruct (has2d dom); simpl; [|discriminate].
  destruct (containerRef dom); simpl.
  - destruct (jsdiv (naturalWidth img) (width (imageDrawRect s))); simpl;
      try discriminate.
    destruct (jsdiv (naturalHeight img) (height (imageDrawRect s))); simpl;
      try discriminate.
    intro E. injection E as <-. exists img. repeat split.
  - intro E. injection E as <-. exists img. repeat split.
Qed.

(** C4.  With an image loaded and drawn on a rectangle of positive size, the
    mask-overlay export is a canvas of exactly the natural size of the image,
    on which the image is drawn at the origin and then the mask canvas, under
    the scale [naturalWidth / imageDrawRect.width] by
    [naturalHeight / imageDrawRect.height] and at offset
    [(-imageDrawRect.x, -imageDrawRect.y)]: a mask pixel lands once, at its
    position relative to [imageDrawRect] scaled to native pixels.  The MIME
    type, which is also the encoding of the payload, is ['image/jpeg'] when
    the source starts with [data:image/jpeg] and ['image/png'] otherwise.
    Size and MIME type are those of every export the call returns, whatever
    the viewport. *)
Theorem getCompositeImageWithMask_native_size :
  forall (p : Props) (dom : Dom) (s : CanvasState) (img : HTMLImageElement),
    imageEl s = Some img ->
    (forall e : Export,
        getCompositeImageWithMask p dom s = Ret e ->
        outWidth (source (payload e)) = naturalWidth img /\
        outHeight (source (payload e)) = naturalHeight img /\
        encoding (payload e) = mimeType e /\
        (prefix "data:image/jpeg" (src p) = true -> mimeType e = "image/jpeg"%string) /\
        (prefix "data:image/jpeg" (src p) = false -> mimeType e = "image/png"%string)) /\
    (forall c : Container,
        containerRef dom = Some c -> has2d dom = true ->
        0 < width (imageDrawRect s) -> 0 < height (imageDrawRect s) ->
        let i := imageDrawRect s in
        let scaleX := naturalWidth img / width i in
        let scaleY := naturalHeight img / height i in
        exists e : Export,
          getCompositeImageWithMask p dom s = Ret e /\
          calls (source (payload e)) =
            [drawImage img 0 0; save; scale scaleX scaleY;
             drawMaskCanvas (maskCanvas s) (- x i) (- y i); restore] /\
          (forall pt : Point,
              exists q : Point,
                maskLandings (calls (source (payload e))) (1, 1) [] pt = [q] /\
                px q == (px pt - x i) * scaleX /\
                py q == (py pt - y i) * scaleY)).
Proof.
  intros p dom s img Himg. split.
  - intros e He.
    destruct (getCompositeImageWithMask_size p dom s e He)
      as (img' & Himg' & Hw & Hh & Henc & Hmime).
    assert (img' = img) by congruence. subst img'.
    split; [exact Hw|]. split; [exact Hh|]. split; [exact Henc|].
    rewrite Hmime. split; intro E; rewrite E; reflexivity.
  - intros c Hc H2d Hw Hh i scaleX scaleY.
    unfold getCompositeImageWithMask. rewrite Himg, H2d, Hc. simpl.
    rewrite !jsdiv_Ret by (apply Qnot_eq_sym, Qlt_not_eq; assumption). simpl.
    eexists. split; [reflexivity|]. simpl.
    split; [reflexivity|].
    intro pt. eexists. split; [reflexivity|]. simpl.
    fold i scaleX scaleY. split; ring.
Qed.

Lemma getCompositeImageWithMask_native_size_witness :
  exists e : Export,
    getCompositeImageWithMask Session.brush Session.dom Session.painted = Ret e /\
    outWidth (source (payload e)) = 800 /\
    outHeight (source (payload e)) = 600 /\
    mimeType e = "image/jpeg"%string /\
    exists q : Point,
      maskLandings (calls (source (payload e))) (1, 1) [] (mkPoint 110 120) = [q] /\
      px q == 220 /\ py q == 140.
Proof.
  destruct (getCompositeImageWithMask_native_size
              Session.brush Session.dom Session.painted (mkImage 800 600) eq_refl)
    as (Hany & Hmounted).
  destruct (Hmounted (mkContainer 400 400 0 0)) as (e & He & _ & Hland);
    try reflexivity.
  destruct (Hany e He) as (Hw & Hh & _ & Hjpeg & _).
  destruct (Hland (mkPoint 110 120)) as (q & Hq & Hqx & Hqy).
  exists e.
  split; [exact He|]. split; [exact Hw|]. split; [exact Hh|].
  split; [apply Hjpeg; reflexivity|].
  exists q. split; [exact Hq|].
  split; [rewrite Hqx | rewrite Hqy]; qeval.
Defined.

(** C10.  Whatever the viewport state, the expanded export draws the source
    image alone, at [(imageDrawRect.x - canvasRect.x,
    imageDrawRect.y - canvasRect.y)] and at the size of [imageDrawRect]; the
    mask canvas is never drawn on it, so the export is the same whatever was
    painted on the mask, and its MIME type is ['image/png']. *)
Theorem getFinalExpandedImage_image_only :
  forall (dom : Dom) (s : CanvasState),
    (forall img : HTMLImageElement,
        imageEl s = Some img -> has2d dom = true ->
        exists e : Export,
          getFinalExpandedImage dom s = Ret e /\
          calls (source (payload e)) =
            [drawImageSized img
               (x (imageDrawRect s) - x (canvasRect s))
               (y (imageDrawRect s) - y (canvasRect s))
               (width (imageDrawRect s)) (height (imageDrawRect s))]) /\
    (forall e : Export,
        getFinalExpandedImage dom s = Ret e ->
        (forall pt : Point, maskLandings (calls (source (payload e))) (1, 1) [] pt = []) /\
        mimeType e = "image/png"%string /\
        encoding (payload e) = "image/png"%string) /\
    (forall mask : list Stamp,
        getFinalExpandedImage dom (setMaskCanvas mask s) = getFinalExpandedImage dom s).
Proof.
  intros dom s. split; [|split].
  - intros img Himg H2d. unfold getFinalExpandedImage. rewrite Himg, H2d. simpl.
    eexists. split; reflexivity.
  - intros e. unfold getFinalExpandedImage.
    destruct (imageEl s) as [img|]; [|discriminate].
    destruct (has2d dom); simpl; [|discriminate].
    intro E. injection E as <-. simpl. repeat split.
  - intro mask. reflexivity.
Qed.

Lemma getFinalExpandedImage_image_only_witness :
  exists e : Export,
    getFinalExpandedImage (mkDom (Some (mkContainer 400 400 0 0)) true)
      (mkCanvas (Some (mkImage 800 600)) false None (mkPoint 0 0) None
         (mkRect (-50) 0 500 400) (mkRect 0 50 400 300) [])
    = Ret e /\
    calls (source (payload e)) = [drawImageSized (mkImage 800 600) (0 - -50) (50 - 0) 400 300] /\
    mimeType e = "image/png"%string.
Proof.
  destruct (getFinalExpandedImage_image_only
              (mkDom (Some (mkContainer 400 400 0 0)) true)
              (mkCanvas (Some (mkImage 800 600)) false None (mkPoint 0 0) None
                 (mkRect (-50) 0 500 400) (mkRect 0 50 400 300) []))
    as (Hret & Hpng & _).
  destruct (Hret (mkImage 800 600)) as (e & He & Hcalls); try reflexivity.
  exists e.
  split; [exact He|]. split; [exact Hcalls|].
  apply (Hpng e He).
Defined.

(** ** The brush *)

Lemma Qltb_false (a b : Q) : b <= a -> Qltb a b = false.
Proof. apply Qltb_ge. Qed.

Lemma Qltb_true (a b : Q) : a < b -> Qltb a b = true.
Proof. apply Qltb_lt. Qed.

Lemma drawSoftCircle_Ret (p : Props) (cx cy : Q) :
  brushHardness p <= 1 -> drawSoftCircle p cx cy = Ret (softCircle p cx cy).
Proof.
  intro Hh. unfold drawSoftCircle, addColorStop, createRadialGradient. simpl.
  unfold Qgtb.
  rewrite (Qltb_false (Math_max 0 (brushHardness p)) 0) by apply Math_max_ge_l.
  rewrite (Qltb_false 1 (Math_max 0 (brushHardness p)))
    by (apply Q.max_lub; [lra | assumption]).
  reflexivity.
Qed.

Lemma drawSoftCircle_Throw (p : Props) (cx cy : Q) :
  1 < brushHardness p -> drawSoftCircle p cx cy = Throw "IndexSizeError".
Proof.
  intro Hh. unfold drawSoftCircle, addColorStop, createRadialGradient. simpl.
  unfold Qgtb.
  rewrite (Qltb_false (Math_max 0 (brushHardness p)) 0) by apply Math_max_ge_l.
  rewrite (Qltb_true 1 (Math_max 0 (brushHardness p)))
    by (eapply Qlt_le_trans; [exact Hh | apply Math_max_ge_r]).
  reflexivity.
Qed.

Lemma Math_max_0_pos (h : Q) : 0 < Math_max 0 h <-> 0 < h.
Proof.
  split; intro H.
  - destruct (Qlt_le_dec 0 h) as [Hpos|Hneg]; [assumption|].
    rewrite (Math_max_free 0 h Hneg) in H. lra.
  - eapply Qlt_le_trans; [exact H | apply Math_max_ge_r].
Qed.

Lemma fade_denominator (rad hardness : Q) :
  0 < rad -> hardness < 1 -> ~ rad - rad * hardness == 0.
Proof.
  intros Hr Hh Hz.
  assert (Hp : rad * (1 - hardness) == 0) by (rewrite <- Hz; ring).
  apply Qmult_integral in Hp. destruct Hp; lra.
Qed.

(** The profile of a stamp whose middle stop is at [hardness]. *)
Lemma stampAlpha_profile (cx cy rad hardness opacity : Q) :
  0 < rad -> 0 <= hardness -> hardness <= 1 ->
  let st :=
    mkStamp (mkPoint cx cy) rad
      (mkGradient cx cy rad
         [mkStop 0 (rgba 255 0 255 opacity);
          mkStop hardness (rgba 255 0 255 opacity);
          mkStop 1 (rgba 255 0 255 0)]) in
  (forall d : Q, 0 <= d -> d < rad * hardness -> stampAlpha st d == opacity) /\
  (forall d : Q, rad * hardness <= d -> d <= rad -> hardness < 1 ->
                 stampAlpha st d ==
                 opacity * ((rad - d) / (rad - rad * hardness))) /\
  stampAlpha st rad == 0.
Proof.
  intros Hrad H0 H1 st.
  unfold stampAlpha, gradientAlpha, st;
    cbn [fillStyle stops radius r1 alphaFrom offset color alpha].
  split; [|split].
  - intros d Hd0 Hd.
    assert (Hdr : d < rad).
    { apply Qlt_le_trans with (rad * hardness); [assumption|].
      apply Qle_trans with (rad * 1); [|lra].
      rewrite !(Qmult_comm rad). apply Qmult_le_compat_r; lra. }
    assert (Ht0 : 0 <= d / rad) by (apply Qle_shift_div_l; lra).
    assert (Hth : d / rad < hardness).
    { apply Qlt_shift_div_r; [assumption|]. rewrite Qmult_comm. assumption. }
    unfold Qgtb. rewrite (Qltb_false rad d) by lra.
    rewrite (Qltb_false (d / rad) 0) by assumption.
    rewrite (Qltb_true (d / rad) hardness) by assumption.
    unfold lerp; cbn [alpha color offset]. ring.
  - intros d Hd Hdr Hh.
    pose proof (fade_denominator rad hardness Hrad Hh) as Hden.
    assert (Hth : hardness <= d / rad).
    { apply Qle_shift_div_l; [assumption|]. rewrite Qmult_comm. assumption. }
    assert (Hx : d / rad * rad == d) by (field; lra).
    unfold Qgtb. rewrite (Qltb_false rad d) by assumption.
    rewrite (Qltb_false (d / rad) 0) by lra.
    rewrite (Qltb_false (d / rad) hardness) by assumption.
    destruct (Qltb (d / rad) 1) eqn:E.
    + unfold lerp; cbn [alpha color offset]. field. split; lra.
    + apply Qltb_ge in E.
      assert (Hdeq : d == rad).
      { apply Qle_antisym; [assumption|].
        apply Qle_trans with (1 * rad); [lra|].
        apply Qle_trans with (d / rad * rad); [|lra].
        apply Qmult_le_compat_r; lra. }
      cbn [alpha color]. rewrite Hdeq. field. exact Hden.
  - assert (Ht : rad / rad == 1) by (field; lra).
    unfold Qgtb. rewrite (Qltb_false rad rad) by lra.
    rewrite (Qltb_false (rad / rad) 0) by lra.
    rewrite (Qltb_false (rad / rad) hardness) by lra.
    rewrite (Qltb_false (rad / rad) 1) by lra.
    reflexivity.
Qed.

(** C7, as the code has it.  For every brush of positive size and hardness at
    most 1 (a greater one is refused by [addColorStop]), [drawSoftCircle]
    paints a radial gradient of radius [brushSize / 2] whose alpha is
    [brushOpacity] from distance 0 up to [radius * hardness], then falls
    linearly to 0 at distance [radius].  The hardness used is
    [Math.max(0, brushHardness)]: it is never negative, and it is above 0
    exactly when [brushHardness] is. *)
Theorem drawSoftCircle_gradient :
  forall (p : Props) (cx cy : Q),
    0 < brushSize p -> brushHardness p <= 1 ->
    let rad := brushSize p / 2 in
    let hardness := Math_max 0 (brushHardness p) in
    exists st : Stamp,
      drawSoftCircle p cx cy = Ret st /\
      centre st = mkPoint cx cy /\
      radius st = rad /\
      r1 (fillStyle st) = rad /\
      map offset (stops (fillStyle st)) = [0; hardness; 1] /\
      (forall d : Q, 0 <= d -> d < rad * hardness ->
                     stampAlpha st d == brushOpacity p) /\
      (forall d : Q, rad * hardness <= d -> d <= rad -> hardness < 1 ->
                     stampAlpha st d ==
                     brushOpacity p * ((rad - d) / (rad - rad * hardness))) /\
      stampAlpha st rad == 0 /\
      0 <= hardness /\
      (0 < hardness <-> 0 < brushHardness p).
Proof.
  intros p cx cy Hsize Hhard rad hardness.
  assert (Hrad : 0 < rad) by (subst rad; qlra).
  assert (H0 : 0 <= hardness) by apply Math_max_ge_l.
  assert (H1 : hardness <= 1) by (apply Q.max_lub; [lra | assumption]).
  destruct (stampAlpha_profile cx cy rad hardness (brushOpacity p) Hrad H0 H1)
    as (Hsolid & Hfade & Hedge).
  exists (softCircle p cx cy).
  split; [apply drawSoftCircle_Ret; assumption|].
  split; [reflexivity|]. split; [reflexivity|]. split; [reflexivity|].
  split; [reflexivity|].
  split; [exact Hsolid|]. split; [exact Hfade|]. split; [exact Hedge|].
  split; [exact H0|].
  apply Math_max_0_pos.
Qed.

Lemma drawSoftCircle_gradient_witness :
  exists st : Stamp,
    drawSoftCircle (mkProps "data:image/png;base64,AAAA" 40 (7 # 10) (1 # 2) (Some inpainting))
                   10 10 = Ret st /\
    radius st = 40 / 2 /\
    stampAlpha st 5 == 7 # 10 /\
    stampAlpha st 15 == 7 # 20 /\
    stampAlpha st (40 / 2) == 0.
Proof.
  destruct (drawSoftCircle_gradient
              (mkProps "data:image/png;base64,AAAA" 40 (7 # 10) (1 # 2) (Some inpainting))
              10 10)
    as (st & Hst & _ & Hrad & _ & _ & Hsolid & Hfade & Hedge & _);
    [reflexivity | vm_compute; discriminate |].
  exists st.
  split; [exact Hst|]. split; [exact Hrad|].
  split; [|split].
  - apply Hsolid; qeval.
  - eapply Qeq_trans; [apply Hfade; qeval | qeval].
  - exact Hedge.
Defined.

(** C7 as stated fails: with [brushHardness = 0] the stamp is painted and its
    middle colour stop sits at exactly 0, so the hardness used is not held
    strictly above 0. *)
Lemma drawSoftCircle_hardness_zero :
  ~ (forall (p : Props) (cx cy : Q) (st : Stamp),
        drawSoftCircle p cx cy = Ret st ->
        forall middle : ColorStop,
          nth_error (stops (fillStyle st)) 1 = Some middle -> 0 < offset middle).
Proof.
  intro H.
  specialize (H (mkProps "data:image/png;base64,AAAA" 40 (7 # 10) 0 (Some inpainting))
                10 10 _ eq_refl _ eq_refl).
  revert H. vm_compute. discriminate.
Qed.

(** ** Strokes *)

Lemma Qnat_S (n : nat) : Qnat (S n) == Qnat n + 1.
Proof.
  unfold Qnat. rewrite Nat2Z.inj_succ. unfold Z.succ.
  rewrite inject_Z_plus. reflexivity.
Qed.

Lemma Qnat_nonneg (n : nat) : 0 <= Qnat n.
Proof.
  unfold Qnat. change 0 with (inject_Z 0). rewrite <- Zle_Qle. lia.
Qed.

Lemma strokeStep_ge_1 (p : Props) : 1 <= strokeStep p.
Proof. apply Math_max_ge_l. Qed.

Section StrokeLoop.

Variables dist step : Q.

Lemma strokeOffsets_nth (fuel : nat) :
  forall (i : Q) (k : nat) (o : Q),
    nth_error (strokeOffsets fuel dist step i) k = Some o ->
    o == i + Qnat k * step /\ o < dist.
Proof.
  induction fuel as [|fuel IH]; intros i k o; simpl.
  - destruct k; discriminate.
  - destruct (Qltb i dist) eqn:E; [|destruct k; discriminate].
    apply Qltb_lt in E.
    destruct k as [|k]; simpl.
    + intro H. injection H as <-. split; [change (Qnat 0) with 0; ring | assumption].
    + intro H. apply IH in H. destruct H as [H1 H2].
      split; [|assumption]. rewrite H1, Qnat_S. ring.
Qed.

Lemma strokeOffsets_cover (fuel : nat) :
  forall i : Q,
    dist - i <= Qnat fuel * step ->
    dist <= i + Qnat (List.length (strokeOffsets fuel dist step i)) * step.
Proof.
  induction fuel as [|fuel IH]; intros i Hfuel; simpl.
  - change (Qnat 0) with 0 in *. lra.
  - destruct (Qltb i dist) eqn:E.
    + cbn [List.length]. rewrite Qnat_S.
      assert (Hnext : dist - (i + step) <= Qnat fuel * step).
      { rewrite Qnat_S in Hfuel. lra. }
      specialize (IH (i + step) Hnext). lra.
    + apply Qltb_ge in E. cbn [List.length]. change (Qnat 0) with 0. lra.
Qed.

Lemma strokeOffsets_fuel (fuel : nat) :
  forall i : Q,
    dist - i <= Qnat fuel * step ->
    forall extra : nat,
      strokeOffsets (fuel + extra) dist step i = strokeOffsets fuel dist step i.
Proof.
  induction fuel as [|fuel IH]; intros i Hfuel extra; simpl.
  - assert (Hle : dist <= i) by (change (Qnat 0) with 0 in Hfuel; lra).
    destruct extra; simpl; [reflexivity|].
    rewrite (Qltb_false i dist Hle). reflexivity.
  - destruct (Qltb i dist); [|reflexivity].
    f_equal. apply IH. rewrite Qnat_S in Hfuel. lra.
Qed.

End StrokeLoop.

Lemma strokeFuel_enough (dist step : Q) :
  1 <= step -> dist - 0 <= Qnat (strokeFuel dist) * step.
Proof.
  intro Hstep. unfold strokeFuel.
  apply Qle_trans with (Qnat (Z.to_nat (Qceiling dist)) * 1).
  - apply Qle_trans with (inject_Z (Qceiling dist)).
    + pose proof (Qle_ceiling dist). lra.
    + rewrite Qmult_1_r. unfold Qnat. rewrite <- Zle_Qle. lia.
  - rewrite !(Qmult_comm (Qnat _)).
    apply Qmult_le_compat_r; [assumption | apply Qnat_nonneg].
Qed.

Lemma strokeLoop_offsets (Math_cos Math_sin : Q -> Q) (p : Props) (last : Point)
  (angle dist : Q) (fuel : nat) :
  brushHardness p <= 1 ->
  forall i : Q,
    strokeLoop Math_cos Math_sin fuel p last angle dist i =
    Ret (map (fun o => softCircle p (px last + Math_cos angle * o)
                                    (py last + Math_sin angle * o))
             (strokeOffsets fuel dist (strokeStep p) i)).
Proof.
  intro Hh. induction fuel as [|fuel IH]; intro i; simpl.
  - reflexivity.
  - destruct (Qltb i dist); [|reflexivity].
    rewrite drawSoftCircle_Ret by assumption. simpl.
    rewrite IH. reflexivity.
Qed.

(** C8, as the code has it.  With a hardness the gradient accepts, one
    pointer move from [last] to [currentPos] stamps circles from [last] on
    along the direction [(cos angle, sin angle)], at the multiples of the
    step [max(1, brushSize / 10)] that are below the distance, then one more
    circle exactly at [currentPos].  The parameters of the stamps reach to
    within one step of the distance, so there are at least
    [distance / max(1, brushSize / 10)] of them, which is
    [distance / (brushSize / 10)] when [brushSize >= 10]; the step is no more
    than the brush diameter when [brushSize >= 1].  Where the direction is
    the unit vector of the segment, every stamp of the loop lies on the
    segment.  The loop ends by its own test: more fuel gives the same
    stamps. *)
Theorem strokeStamps_continuity :
  forall (Math_hypot Math_atan2 : Q -> Q -> Q) (Math_cos Math_sin : Q -> Q)
         (p : Props) (last currentPos : Point),
    brushHardness p <= 1 ->
    let dx := px currentPos - px last in
    let dy := py currentPos - py last in
    let dist := Math_hypot dx dy in
    let angle := Math_atan2 dy dx in
    let step := Math_max 1 (brushSize p / 10) in
    exists along : list Stamp,
      strokeStamps Math_hypot Math_atan2 Math_cos Math_sin p last currentPos
      = Ret (along ++ [softCircle p (px currentPos) (py currentPos)]) /\
      (forall (k : nat) (st : Stamp),
          nth_error along k = Some st ->
          exists i : Q,
            i == Qnat k * step /\ i < dist /\
            st = softCircle p (px last + Math_cos angle * i)
                              (py last + Math_sin angle * i)) /\
      dist <= Qnat (List.length along) * step /\
      dist / step <= Qnat (List.length (along ++ [softCircle p (px currentPos) (py currentPos)])) /\
      (10 <= brushSize p ->
       dist / (brushSize p / 10)
       <= Qnat (List.length (along ++ [softCircle p (px currentPos) (py currentPos)]))) /\
      (1 <= brushSize p -> step <= brushSize p) /\
      (Math_cos angle * dist == dx -> Math_sin angle * dist == dy ->
       forall (k : nat) (st : Stamp),
         nth_error along k = Some st ->
         exists t : Q,
           0 <= t /\ t < 1 /\
           px (centre st) == px last + t * dx /\
           py (centre st) == py last + t * dy) /\
      (forall extra : nat,
          strokeLoop Math_cos Math_sin (strokeFuel dist + extra) p last angle dist 0
          = Ret along).
Proof.
  intros Math_hypot Math_atan2 Math_cos Math_sin p last currentPos Hh
         dx dy dist angle step.
  assert (Hstep1 : 1 <= step) by apply Math_max_ge_l.
  assert (Hstep : 0 < step) by lra.
  pose proof (strokeFuel_enough dist step Hstep1) as Hfuel.
  set (stampAt := fun o : Q => softCircle p (px last + Math_cos angle * o)
                                          (py last + Math_sin angle * o)).
  set (offs := strokeOffsets (strokeFuel dist) dist step 0).
  assert (Hnth : forall (k : nat) (st : Stamp),
             nth_error (map stampAt offs) k = Some st ->
             exists i : Q, i == Qnat k * step /\ i < dist /\ st = stampAt i).
  { intros k st Hk. rewrite nth_error_map in Hk.
    destruct (nth_error offs k) as [o|] eqn:Ho; [|discriminate].
    injection Hk as <-.
    apply (strokeOffsets_nth dist step) in Ho. destruct Ho as [Ho1 Ho2].
    exists o. split; [rewrite Ho1; ring|]. split; [assumption | reflexivity]. }
  assert (Hcover : dist <= Qnat (List.length (map stampAt offs)) * step).
  { rewrite length_map.
    pose proof (strokeOffsets_cover dist step (strokeFuel dist) 0 Hfuel) as Hc.
    fold offs in Hc. lra. }
  assert (Hcount : dist / step
                   <= Qnat (List.length (map stampAt offs
                                         ++ [softCircle p (px currentPos) (py currentPos)]))).
  { rewrite length_app. cbn [List.length]. rewrite Nat.add_1_r, Qnat_S.
    apply Qle_shift_div_r; [assumption|].
    set (n := Qnat (List.length (map stampAt offs))) in *. clearbody n.
    assert (E : (n + 1) * step == n * step + step) by ring.
    rewrite E. lra. }
  exists (map stampAt offs).
  split.
  { unfold strokeStamps. fold dx dy dist angle.
    rewrite strokeLoop_offsets by assumption. simpl.
    rewrite drawSoftCircle_Ret by assumption. reflexivity. }
  split; [exact Hnth|].
  split; [exact Hcover|].
  split; [exact Hcount|].
  split.
  { intro Hbig.
    assert (Es : step == brushSize p / 10).
    { unfold step. apply Math_max_pinned.
      apply Qle_shift_div_l; lra. }
    rewrite <- Es. exact Hcount. }
  split.
  { intro Hb. unfold step. apply Q.max_lub; [assumption|].
    apply Qle_shift_div_r; lra. }
  split.
  { intros Hcos Hsin k st Hk.
    destruct (Hnth k st Hk) as (i & Hi & Hlt & ->).
    assert (Hi0 : 0 <= i).
    { rewrite Hi. apply Qmult_le_0_compat; [apply Qnat_nonneg | lra]. }
    assert (Hd : 0 < dist) by lra.
    exists (i / dist).
    split; [apply Qle_shift_div_l; lra|].
    split; [apply Qlt_shift_div_r; lra|].
    unfold stampAt, softCircle; cbn [centre px py].
    rewrite <- Hcos, <- Hsin. split; field; lra. }
  intro extra. rewrite strokeLoop_offsets by assumption.
  change (strokeStep p) with step.
  rewrite (strokeOffsets_fuel dist step _ 0 Hfuel extra).
  reflexivity.
Qed.

Lemma strokeStamps_continuity_witness :
  exists along : list Stamp,
    strokeStamps (fun dx dy => Qabs dx + Qabs dy) (fun _ _ => 0)
                 (fun _ => 1) (fun _ => 0)
                 (mkProps "data:image/png;base64,AAAA" 40 (7 # 10) 1 (Some inpainting))
                 (mkPoint 0 0) (mkPoint 100 0)
    = Ret (along ++ [softCircle
                       (mkProps "data:image/png;base64,AAAA" 40 (7 # 10) 1 (Some inpainting))
                       100 0]) /\
    100 / (40 / 10) <= Qnat (List.length along + 1).
Proof.
  destruct (strokeStamps_continuity
              (fun dx dy => Qabs dx + Qabs dy) (fun _ _ => 0)
              (fun _ => 1) (fun _ => 0)
              (mkProps "data:image/png;base64,AAAA" 40 (7 # 10) 1 (Some inpainting))
              (mkPoint 0 0) (mkPoint 100 0))
    as (along & Hret & _ & _ & _ & Hcount & _); [qeval|].
  exists along. split; [exact Hret|].
  rewrite length_app in Hcount.
  eapply Qle_trans; [|apply Hcount; qeval]. qeval.
Defined.

(** C8 as stated fails for a brush narrower than 10 pixels, where the step is
    1 and not [brushSize / 10]: with [brushSize = 5], the segment from (0, 0)
    to (100, 0) (on which [Math.hypot] is 100, the direction is (1, 0)) gets
    101 stamps, fewer than [100 / (5 / 10) = 200]. *)
Lemma strokeStamps_narrow_brush_count :
  ~ (forall (Math_hypot Math_atan2 : Q -> Q -> Q) (Math_cos Math_sin : Q -> Q)
            (p : Props) (last currentPos : Point) (stamps : list Stamp),
        strokeStamps Math_hypot Math_atan2 Math_cos Math_sin p last currentPos
        = Ret stamps ->
        brushSize p
        < Math_hypot (px currentPos - px last) (py currentPos - py last) ->
        Math_hypot (px currentPos - px last) (py currentPos - py last)
        / (brushSize p / 10)
        <= Qnat (List.length stamps)).
Proof.
  intro H.
  specialize (H (fun dx dy => Qabs dx + Qabs dy) (fun _ _ => 0)
                (fun _ => 1) (fun _ => 0)
                (mkProps "data:image/png;base64,AAAA" 5 (7 # 10) 1 (Some inpainting))
                (mkPoint 0 0) (mkPoint 100 0) _ eq_refl).
  revert H. vm_compute. intro H. apply H; reflexivity.
Qed.

(** ** The pane and its canvas *)






(** ** The mask *)

Lemma canvasProps_loading (img message : string) (s : EditPane.State) :
  EditPane.canvasProps img
    (EditPane.setError None
       (EditPane.setLoadingMessage message (EditPane.setIsLoading true s)))
  = EditPane.canvasProps img s.
Proof. reflexivity. Qed.

(** C6, as the code has it.  Switching the tool, away from the paint tool or
    otherwise, changes the active tool only: the canvas, and so the mask, is
    as it was.  A submit-for-edit that succeeds (a prompt that is not blank,
    an image to edit, an export that succeeds, a service call that returns an
    image) leaves the mask empty and installs the new image; one whose service call throws
    leaves the canvas and the image as they were and sets the error. *)
Theorem mask_cleared_by_successful_edit :
  forall (editImage : DataURL -> string -> string -> outcome string)
         (dom : Dom) (s : EditPane.State),
    (forall tool : EditTool,
        EditPane.canvasRef (EditPane.handleToggleTool tool s) = EditPane.canvasRef s /\
        EditPane.activeTool (EditPane.handleToggleTool tool s) =
        (if activeTool_is (EditPane.activeTool s) tool then None else Some tool)) /\
    (forall (c : CanvasState) (img : string) (composite : Export),
        EditPane.canvasRef s = Some c ->
        EditPane.image s = Some img -> img <> EmptyString ->
        EditPane.isBlank (EditPane.prompt s) = false ->
        containerRef dom <> None -> has2d dom = true ->
        getCompositeImageWithMask (EditPane.canvasProps img s) dom c = Ret composite ->
        (forall result : string,
            editImage (payload composite) (mimeType composite)
                      (EditPane.editPrompt (EditPane.prompt s)) = Ret result ->
            exists s' : EditPane.State,
              EditPane.handleEdit editImage dom s = Ret s' /\
              EditPane.image s' = Some result /\
              EditPane.canvasRef s' = Some (setMaskCanvas [] c)) /\
        (forall msg : string,
            editImage (payload composite) (mimeType composite)
                      (EditPane.editPrompt (EditPane.prompt s)) = Throw msg ->
            exists s' : EditPane.State,
              EditPane.handleEdit editImage dom s = Ret s' /\
              EditPane.image s' = Some img /\
              EditPane.canvasRef s' = Some c /\
              EditPane.error s' = Some (EditPane.failureMessage "Applying edits..."))).
Proof.
  intros editImage dom s. split.
  - intro tool. split; reflexivity.
  - intros c img composite Hc Himg Hne Hprompt Hdom H2d Hcomp.
    assert (Hctx : maskContext dom = true).
    { unfold maskContext. destruct (containerRef dom); [assumption | congruence]. }
    assert (Htruthy : truthy (Some img) = Some img).
    { destruct img; [congruence | reflexivity]. }
    split.
    + intros result Hres. unfold EditPane.handleEdit, EditPane.executeEditAction.
      rewrite Hc, Hprompt, Himg, Htruthy. cbn [EditPane.canvasRef EditPane.image
        EditPane.setError EditPane.setLoadingMessage EditPane.setIsLoading
        EditPane.prompt].
      rewrite Hc, Himg, canvasProps_loading, Hcomp. cbn [bind].
      rewrite Hres. cbn [bind].
      eexists. split; [reflexivity|].
      unfold clearMask. rewrite Hctx. split; reflexivity.
    + intros msg Hres. unfold EditPane.handleEdit, EditPane.executeEditAction.
      rewrite Hc, Hprompt, Himg, Htruthy. cbn [EditPane.canvasRef EditPane.image
        EditPane.setError EditPane.setLoadingMessage EditPane.setIsLoading
        EditPane.prompt].
      rewrite Hc, Himg, canvasProps_loading, Hcomp. cbn [bind].
      rewrite Hres. cbn [bind].
      eexists. split; [reflexivity|].
      cbn. rewrite Himg, Hc. repeat split; reflexivity.
Qed.

Example Session_painted :
  startDrawing Session.brush Session.dom (mkMouse 110 120) Session.loaded
  = Ret Session.painted.
Proof. reflexivity. Qed.

Example Session_props :
  EditPane.canvasProps Session.jpeg (Session.pane Session.painted) = Session.brush.
Proof. reflexivity. Qed.

Lemma mask_cleared_by_successful_edit_witness :
  exists s' : EditPane.State,
    EditPane.handleEdit (fun _ _ _ => Ret "data:image/png;base64,BBBB"%string)
      Session.dom (Session.pane Session.painted) = Ret s' /\
    EditPane.image s' = Some "data:image/png;base64,BBBB"%string /\
    EditPane.canvasRef s' = Some (setMaskCanvas [] Session.painted).
Proof.
  destruct (mask_cleared_by_successful_edit
              (fun _ _ _ => Ret "data:image/png;base64,BBBB"%string)
              Session.dom (Session.pane Session.painted))
    as (_ & Hedit).
  destruct (Hedit Session.painted Session.jpeg
              (mkExport
                 (toDataURL
                    (mkOutput 800 600
                       [drawImage (mkImage 800 600) 0 0; save;
                        scale (800 / 400) (600 / 300);
                        drawMaskCanvas [softCircle Session.brush 110 120] (- 0) (- 50);
                        restore])
                    "image/jpeg")
                 "image/jpeg"))
    as (Hok & _);
    try reflexivity; try discriminate.
  apply (Hok "data:image/png;base64,BBBB"%string). reflexivity.
Defined.

(** C6 as stated fails on its first half: with the paint tool active and a
    stamp on the mask, switching to the expand tool leaves the paint tool and
    keeps the stamp. *)
Lemma tool_switch_keeps_mask :
  ~ (forall (s : EditPane.State) (tool : EditTool) (c' : CanvasState),
        EditPane.activeTool s = Some inpainting ->
        EditPane.activeTool (EditPane.handleToggleTool tool s) <> Some inpainting ->
        EditPane.canvasRef (EditPane.handleToggleTool tool s) = Some c' ->
        maskCanvas c' = []).
Proof.
  intro H.
  assert (Hmask : maskCanvas Session.painted = []).
  { apply (H (Session.pane Session.painted) expand Session.painted).
    - reflexivity.
    - discriminate.
    - reflexivity. }
  discriminate Hmask.
Qed.

(** * Further properties *)

(** ** Presets *)

(** X2.  With an image loaded, a preset looks at the image rectangle only:
    whatever the canvas rectangle was before (set outright, dragged, entered
    as an explicit size), the outcome is the same; and what it returns
    differs from the state it got in the canvas rectangle alone. *)
Theorem setAspectRatio_forgets_canvasRect :
  forall (ratioStr : string) (dom : Dom) (s : CanvasState) (img : HTMLImageElement),
    imageEl s = Some img ->
    (forall r : Rect,
        setAspectRatio ratioStr (setCanvasRect r s) = setAspectRatio ratioStr s) /\
    (forall e : MouseEvent,
        setAspectRatio ratioStr (handleMouseMove dom e s) = setAspectRatio ratioStr s) /\
    (forall w h : Q,
        setAspectRatio ratioStr (setExplicitCanvasSize dom w h s)
        = setAspectRatio ratioStr s) /\
    (forall s' : CanvasState,
        setAspectRatio ratioStr s = Ret s' -> s' = setCanvasRect (canvasRect s') s).
Proof.
  intros ratioStr dom s img Himg.
  assert (Hset : forall r : Rect,
             setAspectRatio ratioStr (setCanvasRect r s) = setAspectRatio ratioStr s).
  { intro r. unfold setAspectRatio. cbn [imageEl setCanvasRect imageDrawRect].
    rewrite Himg. reflexivity. }
  split; [exact Hset|]. split; [|split].
  - intro e. unfold handleMouseMove.
    destruct (truthy (isDragging s)); [|reflexivity].
    destruct (containerRef dom); [apply Hset | reflexivity].
  - intros w h. unfold setExplicitCanvasSize.
    destruct (containerRef dom); [apply Hset | reflexivity].
  - intros s'. unfold setAspectRatio. rewrite Himg.
    destruct (parseRatio ratioStr) as [[w h]| |]; simpl; try discriminate.
    destruct (jsdiv w h); simpl; try discriminate.
    destruct (jsdiv (width (imageDrawRect s)) (height (imageDrawRect s)));
      simpl; try discriminate.
    destruct (Qgtb a a0); simpl.
    + intro E. injection E as <-. reflexivity.
    + destruct (jsdiv (width (imageDrawRect s)) a); simpl; try discriminate.
      intro E. injection E as <-. reflexivity.
Qed.

Lemma setAspectRatio_forgets_canvasRect_witness :
  setAspectRatio "16:9"
    (handleMouseMove Session.dom (mkMouse 10 10)
       (setIsDragging (Some "tl"%string) Session.loaded))
  = setAspectRatio "16:9" (setIsDragging (Some "tl"%string) Session.loaded).
Proof.
  destruct (setAspectRatio_forgets_canvasRect "16:9" Session.dom
              (setIsDragging (Some "tl"%string) Session.loaded)
              (mkImage 800 600) eq_refl)
    as (_ & Hmove & _).
  apply Hmove.
Defined.

(** ** Loading, refitting and exporting *)

Lemma fit_centred (dom : Dom) (c : Container) (img : HTMLImageElement) (r : Rect) :
  containerRef dom = Some c -> fitImageToContainer dom img = Ret r ->
  x r = (clientWidth c - width r) / 2 /\ y r = (clientHeight c - height r) / 2.
Proof.
  intros Hc. unfold fitImageToContainer. rewrite Hc.
  destruct (jsdiv (naturalWidth img) (naturalHeight img)) as [ratio| |];
    simpl; try discriminate.
  destruct (jsdiv (clientWidth c) ratio) as [cand| |]; simpl; try discriminate.
  destruct (Qgtb cand (clientHeight c)); intro E; injection E as <-; split; reflexivity.
Qed.

Lemma refitted_shape (dom : Dom) (img : HTMLImageElement) (s s' : CanvasState) :
  refitted dom img s s' ->
  exists (r : Rect) (s0 : CanvasState),
    fitImageToContainer dom img = Ret r /\
    imageEl s0 = Some img /\ maskCanvas s0 = maskCanvas s /\
    s' = redrawCanvas dom (setCanvasRect r (setImageDrawRect r s0)).
Proof.
  intros [Hload | [Himg [Hresize | Hreset]]].
  - unfold onload in Hload.
    destruct (fitImageToContainer dom img) as [r| |]; simpl in Hload; try discriminate.
    injection Hload as <-. exists r, (setImageEl (Some img) s). repeat split.
  - unfold handleResize in Hresize. rewrite Himg in Hresize.
    destruct (fitImageToContainer dom img) as [r| |]; simpl in Hresize; try discriminate.
    injection Hresize as <-. exists r, s. repeat split. exact Himg.
  - unfold reset in Hreset. rewrite Himg in Hreset.
    destruct (fitImageToContainer dom img) as [r| |]; simpl in Hreset; try discriminate.
    injection Hreset as <-. exists r, s. repeat split. exact Himg.
Qed.

(** X4.  A load, a window resize and a reset all refit the canvas: the image
    rectangle is the fit of the image in the container and the canvas
    rectangle is that same rectangle, so any expansion is gone; when the
    component is mounted the mask is emptied as well.  A reset or a resize
    right after changes nothing more. *)
Theorem refit_discards_expansion_and_mask :
  forall (dom : Dom) (img : HTMLImageElement) (s s' : CanvasState),
    refitted dom img s s' ->
    fitImageToContainer dom img = Ret (imageDrawRect s') /\
    canvasRect s' = imageDrawRect s' /\
    imageEl s' = Some img /\
    (containerRef dom <> None -> maskCanvas s' = []) /\
    (containerRef dom = None -> maskCanvas s' = maskCanvas s) /\
    reset dom s' = Ret s' /\
    handleResize dom s' = Ret s'.
Proof.
  intros dom img s s' Hre.
  destruct (refitted_shape dom img s s' Hre) as (r & s0 & Hfit & Himg & Hmask & ->).
  unfold reset, handleResize, redrawCanvas.
  destruct (containerRef dom) as [c|] eqn:Hc;
    cbn [imageEl imageDrawRect canvasRect maskCanvas setMaskCanvas setCanvasRect
         setImageDrawRect];
    rewrite Himg, Hfit; cbn [bind]; rewrite ?Hc.
  - repeat split;
      first [reflexivity | intros; first [assumption | congruence]].
  - repeat split;
      first [reflexivity | intros; first [assumption | congruence]].
Qed.

Lemma refit_discards_expansion_and_mask_witness :
  exists s' : CanvasState,
    handleResize Session.dom (setCanvasRect (mkRect (-50) 0 500 400) Session.painted)
    = Ret s' /\
    canvasRect s' = imageDrawRect s' /\ maskCanvas s' = [].
Proof.
  eexists. split; [reflexivity|].
  destruct (refit_discards_expansion_and_mask Session.dom (mkImage 800 600)
              (setCanvasRect (mkRect (-50) 0 500 400) Session.painted) _
              (or_intror (conj eq_refl (or_introl eq_refl))))
    as (_ & Hrect & _ & Hmask & _).
  split; [exact Hrect|]. apply Hmask. discriminate.
Defined.

Lemma canvasDimension_floor (default q : Q) :
  0 <= q -> q < 2147483648 ->
  canvasDimension default q <= q /\ q < canvasDimension default q + 1.
Proof.
  intros H0 Hmax. unfold canvasDimension.
  assert (Hquot : (Qnum q ÷ Z.pos (Qden q))%Z = Qfloor q).
  { destruct q as [n d]. unfold Qfloor. cbn [Qnum Qden].
    apply Z.quot_div_nonneg; [|reflexivity].
    unfold Qle in H0. cbn in H0. lia. }
  rewrite Hquot.
  pose proof (Qfloor_le q) as Hle. pose proof (Qlt_floor q) as Hlt.
  assert (Hlo : (0 <= Qfloor q)%Z).
  { change 0%Z with (Qfloor 0). apply Qfloor_resp_le. exact H0. }
  assert (Hhi : (Qfloor q < 2147483648)%Z).
  { apply Z.le_lt_trans with (Qfloor 2147483647); [|reflexivity].
    apply Z.lt_succ_r. rewrite Zlt_Qlt.
    eapply Qle_lt_trans; [exact Hle|].
    unfold Z.succ. rewrite inject_Z_plus. exact Hmax. }
  rewrite Z.mod_small by lia.
  destruct (Qfloor q >? 2147483647)%Z eqn:E; [lia|].
  split; [exact Hle|].
  rewrite inject_Z_plus in Hlt. exact Hlt.
Qed.

Lemma canvasDimension_whole (default : Q) (n : Z) :
  (0 <= n < 2147483648)%Z -> canvasDimension default (inject_Z n) = inject_Z n.
Proof.
  intro Hn. unfold canvasDimension, inject_Z. cbn [Qnum Qden].
  rewrite Z.quot_1_r, Z.mod_small by lia.
  destruct (n >? 2147483647)%Z eqn:E; [lia | reflexivity].
Qed.

(** X5.  Right after a load, a resize or a reset, the expanded export is the
    fitted image and nothing more: the image is drawn at the origin and at
    the size of the image rectangle, on an output canvas that keeps of this
    size the whole pixels, so that less than one pixel of the image is cut
    off at the right and at the bottom. *)
Theorem refit_export_is_fitted_image :
  forall (dom : Dom) (img : HTMLImageElement) (s s' : CanvasState),
    refitted dom img s s' -> has2d dom = true ->
    exists (e : Export) (dx dy : Q),
      getFinalExpandedImage dom s' = Ret e /\
      calls (source (payload e)) =
        [drawImageSized img dx dy (width (imageDrawRect s')) (height (imageDrawRect s'))] /\
      dx == 0 /\ dy == 0 /\
      outWidth (source (payload e)) = canvasDimension 300 (width (imageDrawRect s')) /\
      outHeight (source (payload e)) = canvasDimension 150 (height (imageDrawRect s')) /\
      (0 <= width (imageDrawRect s') -> width (imageDrawRect s') < 2147483648 ->
       outWidth (source (payload e)) <= width (imageDrawRect s') /\
       width (imageDrawRect s') < outWidth (source (payload e)) + 1) /\
      (0 <= height (imageDrawRect s') -> height (imageDrawRect s') < 2147483648 ->
       outHeight (source (payload e)) <= height (imageDrawRect s') /\
       height (imageDrawRect s') < outHeight (source (payload e)) + 1).
Proof.
  intros dom img s s' Hre H2d.
  destruct (refitted_shape dom img s s' Hre) as (r & s0 & Hfit & Himg & Hmask & ->).
  assert (Hsame : forall s1 : CanvasState,
             imageEl s1 = Some img -> canvasRect s1 = r -> imageDrawRect s1 = r ->
             exists (e : Export) (dx dy : Q),
               getFinalExpandedImage dom s1 = Ret e /\
               calls (source (payload e)) = [drawImageSized img dx dy (width r) (height r)] /\
               dx == 0 /\ dy == 0 /\
               outWidth (source (payload e)) = canvasDimension 300 (width r) /\
               outHeight (source (payload e)) = canvasDimension 150 (height r)).
  { intros s1 Hi Hc Hd. unfold getFinalExpandedImage. rewrite Hi, H2d, Hc, Hd.
    cbn [negb]. eexists. eexists. eexists. split; [reflexivity|].
    cbn [calls source payload outWidth outHeight].
    split; [reflexivity|]. split; [ring|]. split; [ring|]. split; reflexivity. }
  assert (Hstate : imageEl (redrawCanvas dom (setCanvasRect r (setImageDrawRect r s0)))
                   = Some img /\
                   canvasRect (redrawCanvas dom (setCanvasRect r (setImageDrawRect r s0))) = r /\
                   imageDrawRect (redrawCanvas dom (setCanvasRect r (setImageDrawRect r s0))) = r).
  { unfold redrawCanvas. destruct (containerRef dom); repeat split; assumption. }
  destruct Hstate as (Hi & Hc & Hd).
  destruct (Hsame _ Hi Hc Hd) as (e & dx & dy & He & Hcalls & Hdx & Hdy & Hw & Hh).
  exists e, dx, dy. rewrite Hd.
  split; [exact He|]. split; [exact Hcalls|]. split; [exact Hdx|]. split; [exact Hdy|].
  split; [exact Hw|]. split; [exact Hh|].
  rewrite Hw, Hh. split; apply canvasDimension_floor.
Qed.

Lemma refit_export_is_fitted_image_witness :
  exists (s' : CanvasState) (e : Export) (dx dy : Q),
    handleResize (mkDom (Some (mkContainer 1200 412 0 0)) true) Session.painted = Ret s' /\
    getFinalExpandedImage (mkDom (Some (mkContainer 1200 412 0 0)) true) s' = Ret e /\
    calls (source (payload e)) =
      [drawImageSized (mkImage 800 600) dx dy
         (width (imageDrawRect s')) (height (imageDrawRect s'))] /\
    dx == 0 /\ dy == 0 /\
    width (imageDrawRect s') == 1648 # 3 /\
    outWidth (source (payload e)) == 549 /\
    outHeight (source (payload e)) == 412.
Proof.
  eexists.
  destruct (refit_export_is_fitted_image (mkDom (Some (mkContainer 1200 412 0 0)) true)
              (mkImage 800 600) Session.painted _
              (or_intror (conj eq_refl (or_introl eq_refl))) eq_refl)
    as (e & dx & dy & He & Hcalls & Hdx & Hdy & Hw & Hh & _).
  exists e, dx, dy.
  split; [reflexivity|]. split; [exact He|]. split; [exact Hcalls|].
  split; [exact Hdx|]. split; [exact Hdy|].
  split; [qeval|]. split; [rewrite Hw; qeval | rewrite Hh; qeval].
Defined.

(** X6.  Before any image is loaded, both exports throw ['Image not loaded'],
    and a preset, a reset and a window resize leave the state as it is; with
    an image but no 2d context, both exports throw
    ['Could not get canvas context']. *)
Theorem nothing_without_image :
  forall (p : Props) (dom : Dom) (s : CanvasState),
    (imageEl s = None ->
     getCompositeImageWithMask p dom s = Throw "Image not loaded" /\
     getFinalExpandedImage dom s = Throw "Image not loaded" /\
     (forall ratioStr : string, setAspectRatio ratioStr s = Ret s) /\
     reset dom s = Ret s /\
     handleResize dom s = Ret s) /\
    (imageEl s <> None -> has2d dom = false ->
     getCompositeImageWithMask p dom s = Throw "Could not get canvas context" /\
     getFinalExpandedImage dom s = Throw "Could not get canvas context").
Proof.
  intros p dom s. split.
  - intro Hnone.
    unfold getCompositeImageWithMask, getFinalExpandedImage, setAspectRatio,
      reset, handleResize.
    rewrite Hnone. repeat split.
  - intros Himg H2d.
    unfold getCompositeImageWithMask, getFinalExpandedImage.
    destruct (imageEl s); [|congruence].
    rewrite H2d. split; reflexivity.
Qed.

Lemma nothing_without_image_witness :
  getFinalExpandedImage Session.dom initialCanvas = Throw "Image not loaded" /\
  setAspectRatio "16:9" initialCanvas = Ret initialCanvas /\
  getCompositeImageWithMask Session.brush (mkDom (Some (mkContainer 400 400 0 0)) false)
    Session.loaded = Throw "Could not get canvas context".
Proof.
  destruct (nothing_without_image Session.brush Session.dom initialCanvas)
    as (Hnone & _).
  destruct (Hnone eq_refl) as (_ & Hexp & Hset & _).
  destruct (nothing_without_image Session.brush
              (mkDom (Some (mkContainer 400 400 0 0)) false) Session.loaded)
    as (_ & Hctx).
  destruct Hctx as (Hcomp & _); [discriminate | reflexivity |].
  split; [exact Hexp|]. split; [apply Hset | exact Hcomp].
Defined.

(** X7.  An explicit size gives the canvas rectangle the centre of the
    container and touches neither the image rectangle nor the mask.  The
    expanded export that follows keeps of the size entered the whole pixels,
    so it has exactly that size when the numbers entered are whole (and
    below 2^31); when the image rectangle is the fit of the image, the image
    is drawn centred on the size entered. *)
Theorem explicit_size_export :
  forall (dom : Dom) (c : Container) (w h : Q) (s : CanvasState)
         (img : HTMLImageElement),
    containerRef dom = Some c -> has2d dom = true -> imageEl s = Some img ->
    let s' := setExplicitCanvasSize dom w h s in
    x (canvasRect s') + w / 2 == clientWidth c / 2 /\
    y (canvasRect s') + h / 2 == clientHeight c / 2 /\
    imageDrawRect s' = imageDrawRect s /\
    maskCanvas s' = maskCanvas s /\
    exists (e : Export) (dx dy : Q),
      getFinalExpandedImage dom s' = Ret e /\
      outWidth (source (payload e)) = canvasDimension 300 w /\
      outHeight (source (payload e)) = canvasDimension 150 h /\
      (forall n m : Z,
          w = inject_Z n -> h = inject_Z m ->
          (0 <= n < 2147483648)%Z -> (0 <= m < 2147483648)%Z ->
          outWidth (source (payload e)) = w /\ outHeight (source (payload e)) = h) /\
      calls (source (payload e)) =
        [drawImageSized img dx dy (width (imageDrawRect s)) (height (imageDrawRect s))] /\
      (fitImageToContainer dom img = Ret (imageDrawRect s) ->
       dx + width (imageDrawRect s) / 2 == w / 2 /\
       dy + height (imageDrawRect s) / 2 == h / 2).
Proof.
  intros dom c w h s img Hc H2d Himg s'. subst s'.
  unfold setExplicitCanvasSize. rewrite Hc.
  cbn [canvasRect imageDrawRect maskCanvas setCanvasRect x y].
  split; [qlra|]. split; [qlra|]. split; [reflexivity|]. split; [reflexivity|].
  unfold getFinalExpandedImage.
  cbn [imageEl canvasRect imageDrawRect setCanvasRect x y width height].
  rewrite Himg, H2d. cbn [negb].
  eexists. eexists. eexists. split; [reflexivity|].
  cbn [calls source payload outWidth outHeight].
  split; [reflexivity|]. split; [reflexivity|].
  split.
  { intros n m -> -> Hn Hm. split; apply canvasDimension_whole; assumption. }
  split; [reflexivity|].
  intro Hfit. destruct (fit_centred dom c img _ Hc Hfit) as [Hx Hy].
  rewrite Hx, Hy. split; qlra.
Qed.

Example fittedSession_onload :
  onload Session.dom (mkImage 800 600) initialCanvas = Ret fittedSession.
Proof. reflexivity. Qed.

Lemma explicit_size_export_witness :
  exists (e : Export) (dx dy : Q),
    getFinalExpandedImage Session.dom
      (setExplicitCanvasSize Session.dom 1024 768 fittedSession) = Ret e /\
    outWidth (source (payload e)) = 1024 /\
    outHeight (source (payload e)) = 768 /\
    calls (source (payload e)) =
      [drawImageSized (mkImage 800 600) dx dy
         (width (imageDrawRect fittedSession)) (height (imageDrawRect fittedSession))] /\
    dx + width (imageDrawRect fittedSession) / 2 == 1024 / 2 /\
    dy + height (imageDrawRect fittedSession) / 2 == 768 / 2.
Proof.
  destruct (explicit_size_export Session.dom (mkContainer 400 400 0 0) 1024 768
              fittedSession (mkImage 800 600) eq_refl eq_refl eq_refl)
    as (_ & _ & _ & _ & e & dx & dy & He & _ & _ & Hwhole & Hcalls & Hcentre).
  exists e, dx, dy.
  destruct (Hwhole 1024%Z 768%Z eq_refl eq_refl) as [Hw Hh]; [lia | lia |].
  split; [exact He|]. split; [exact Hw|]. split; [exact Hh|].
  split; [exact Hcalls|].
  apply Hcentre. reflexivity.
Defined.

(** ** More on drags *)

Lemma handleMouseMove_idle (dom : Dom) (e : MouseEvent) (s : CanvasState) :
  truthy (isDragging s) = None -> handleMouseMove dom e s = s.
Proof. intro H. unfold handleMouseMove. rewrite H. reflexivity. Qed.

Lemma rectsAfterMoves_idle (dom : Dom) (moves : list MouseEvent) (s : CanvasState) :
  truthy (isDragging s) = None ->
  Forall (eq (canvasRect s)) (rectsAfterMoves dom moves s).
Proof.
  intro H. induction moves as [|e rest IH]; simpl.
  - constructor.
  - rewrite (handleMouseMove_idle dom e s H). constructor; [reflexivity | exact IH].
Qed.

(** X8.  Pointer moves resize the canvas rectangle only while a handle is
    held under the expand or the resize tool.  Under any other tool a press
    on a handle is ignored, so a whole gesture leaves the rectangle where it
    was; and once the button is released, further moves leave it where the
    drag put it. *)
Theorem moves_resize_only_while_dragging :
  forall (p : Props) (dom : Dom) (h : string) (moves : list MouseEvent)
         (s : CanvasState),
    (isExpandable p = false -> isDragging s = None ->
     Forall (eq (canvasRect s)) (dragGesture p dom h moves s)) /\
    Forall (eq (canvasRect s)) (rectsAfterMoves dom moves (handleMouseUp s)).
Proof.
  intros p dom h moves s. split.
  - intros Hexp Hidle. unfold dragGesture, handleMouseDownOnHandle.
    rewrite Hexp. simpl. apply rectsAfterMoves_idle. rewrite Hidle. reflexivity.
  - apply (rectsAfterMoves_idle dom moves (handleMouseUp s)). reflexivity.
Qed.

Lemma moves_resize_only_while_dragging_witness :
  Forall (eq (mkRect 0 50 400 300))
    (dragGesture Session.brush Session.dom "br" [mkMouse 10 10; mkMouse 500 500]
       Session.loaded).
Proof.
  destruct (moves_resize_only_while_dragging Session.brush Session.dom "br"
              [mkMouse 10 10; mkMouse 500 500] Session.loaded)
    as (Hgate & _).
  apply Hgate; reflexivity.
Defined.

(** X9.  A drag moves one edge and keeps the opposite one.  On a handle with
    [r] and no [l] the right edge goes to the pointer, and on one with [l]
    and no [r] the right edge stays where it was, as long as the minimum
    width is not reached; on a handle with neither, a width that is at least
    the minimum is kept.  The same holds vertically with [b] and [t]. *)
Theorem drag_keeps_opposite_edge :
  forall (h : string) (ptrX ptrY : Q) (prev : Rect),
    let r := dragUpdate h ptrX ptrY prev in
    (includes h "r" = true -> includes h "l" = false ->
     2 * HANDLE_SIZE <= ptrX - x prev ->
     x r = x prev /\ x r + width r == ptrX) /\
    (includes h "l" = true -> includes h "r" = false ->
     2 * HANDLE_SIZE <= x prev + width prev - ptrX ->
     x r + width r == x prev + width prev) /\
    (includes h "l" = false -> includes h "r" = false ->
     2 * HANDLE_SIZE <= width prev ->
     x r = x prev /\ width r == width prev) /\
    (includes h "b" = true -> includes h "t" = false ->
     2 * HANDLE_SIZE <= ptrY - y prev ->
     y r = y prev /\ y r + height r == ptrY) /\
    (includes h "t" = true -> includes h "b" = false ->
     2 * HANDLE_SIZE <= y prev + height prev - ptrY ->
     y r + height r == y prev + height prev) /\
    (includes h "t" = false -> includes h "b" = false ->
     2 * HANDLE_SIZE <= height prev ->
     y r = y prev /\ height r == height prev).
Proof.
  intros h ptrX ptrY prev r. subst r.
  rewrite dragUpdate_x, dragUpdate_y, dragUpdate_width, dragUpdate_height.
  unfold HANDLE_SIZE.
  split; [|split; [|split; [|split; [|split]]]];
    intros Ha Hb Hfar; rewrite ?Ha, ?Hb;
    try (split; [reflexivity|]);
    rewrite Math_max_free by lra; lra.
Qed.

Lemma drag_keeps_opposite_edge_witness :
  (x (dragUpdate "l" 30 0 (mkRect 0 50 400 300))
   + width (dragUpdate "l" 30 0 (mkRect 0 50 400 300)) == 0 + 400) /\
  (y (dragUpdate "l" 30 0 (mkRect 0 50 400 300)) = 50 /\
   height (dragUpdate "l" 30 0 (mkRect 0 50 400 300)) == 300).
Proof.
  destruct (drag_keeps_opposite_edge "l" 30 0 (mkRect 0 50 400 300))
    as (_ & Hl & _ & _ & _ & Hv).
  split; [apply Hl | apply Hv]; qeval.
Defined.

Lemma drag_axis_settled (l r : bool) (p x0 w floor : Q) :
  l && r = false ->
  let w1 := Math_max (if l then (if r then p - x0 else w) + (x0 - p)
                      else if r then p - x0 else w) floor in
  let x1 := if l then p else x0 in
  Math_max (if l then (if r then p - x1 else w1) + (x1 - p)
            else if r then p - x1 else w1) floor == w1.
Proof.
  intros Hlr w1 x1. subst x1.
  assert (Hge : floor <= w1) by apply Math_max_ge_r.
  destruct l, r; try discriminate.
  - rewrite Math_max_free by lra. lra.
  - reflexivity.
  - apply Math_max_free. exact Hge.
Qed.

Lemma handles_one_side (h : string) :
  In h handles ->
  includes h "l" && includes h "r" = false /\
  includes h "t" && includes h "b" = false.
Proof.
  intro Hin. simpl in Hin.
  repeat (destruct Hin as [<-|Hin]; [split; reflexivity|]).
  contradiction.
Qed.

(** X10.  On each of the eight handles a second move event at the same
    pointer position changes nothing: the rectangle it gives denotes the
    same numbers as the one the first move gave. *)
Theorem drag_same_position_idempotent :
  forall (h : string) (ptrX ptrY : Q) (prev : Rect),
    In h handles ->
    Rect_eq (dragUpdate h ptrX ptrY (dragUpdate h ptrX ptrY prev))
            (dragUpdate h ptrX ptrY prev).
Proof.
  intros h ptrX ptrY prev Hin.
  destruct (handles_one_side h Hin) as [Hlr Htb].
  unfold Rect_eq.
  rewrite !dragUpdate_width, !dragUpdate_height, !dragUpdate_x, !dragUpdate_y.
  split; [destruct (includes h "l"); reflexivity|].
  split; [destruct (includes h "t"); reflexivity|].
  split.
  - apply (drag_axis_settled _ _ ptrX (x prev) (width prev) _ Hlr).
  - apply (drag_axis_settled _ _ ptrY (y prev) (height prev) _ Htb).
Qed.

Lemma drag_same_position_idempotent_witness :
  Rect_eq (dragUpdate "tl" 390 10 (dragUpdate "tl" 390 10 (mkRect 0 50 400 300)))
          (dragUpdate "tl" 390 10 (mkRect 0 50 400 300)).
Proof.
  apply (drag_same_position_idempotent "tl" 390 10 (mkRect 0 50 400 300)).
  simpl. tauto.
Defined.

(** ** More on painting *)

Lemma last_cons_default {A : Type} (l : list A) :
  forall a d : A, List.last (a :: l) d = List.last l a.
Proof.
  induction l as [|b l IH]; intros a d; [reflexivity|].
  change (List.last (a :: b :: l) d) with (List.last (b :: l) d).
  rewrite !IH. reflexivity.
Qed.

Section PaintFacts.

Variables Math_hypot Math_atan2 : Q -> Q -> Q.
Variables Math_cos Math_sin : Q -> Q.
Variable p : Props.
Variable dom : Dom.

Let draw' := draw Math_hypot Math_atan2 Math_cos Math_sin p dom.
Let drawMoves' := drawMoves Math_hypot Math_atan2 Math_cos Math_sin p dom.

Lemma drawMoves_unpaintable (moves : list MouseEvent) :
  isPaintable p = false ->
  forall s : CanvasState,
    exists s' : CanvasState,
      drawMoves' moves s = Ret s' /\
      maskCanvas s' = maskCanvas s /\ isDrawing s' = isDrawing s /\
      lastPoint s' = lastPoint s /\ canvasRect s' = canvasRect s.
Proof.
  intro Hp. induction moves as [|e rest IH]; intro s.
  - exists s. repeat split.
  - unfold drawMoves', drawMoves, draw. fold drawMoves.
    cbn [isDrawing setMousePos]. rewrite Hp, andb_false_r. cbn [bind].
    destruct (IH (setMousePos (getCoords dom e) s)) as (s' & Hs' & Hrest).
    exists s'. split; [exact Hs' | exact Hrest].
Qed.

Lemma strokeStamps_Ret (last cur : Point) :
  brushHardness p <= 1 ->
  exists along : list Stamp,
    strokeStamps Math_hypot Math_atan2 Math_cos Math_sin p last cur
    = Ret (along ++ [softCircle p (px cur) (py cur)]) /\
    Forall (brushStamp p) along.
Proof.
  intro Hh. unfold strokeStamps.
  rewrite strokeLoop_offsets by assumption. cbn [bind].
  rewrite drawSoftCircle_Ret by assumption. cbn [bind].
  eexists. split; [reflexivity|].
  apply Forall_forall. intros st Hin. apply in_map_iff in Hin.
  destruct Hin as (o & <- & _). split; reflexivity.
Qed.

Lemma draw_while_drawing (e : MouseEvent) (s : CanvasState) (last : Point) :
  isPaintable p = true -> maskContext dom = true -> brushHardness p <= 1 ->
  isDrawing s = true -> lastPoint s = Some last ->
  exists (along : list Stamp) (s' : CanvasState),
    draw' e s = Ret s' /\
    maskCanvas s' =
      maskCanvas s ++ along
      ++ [softCircle p (px (getCoords dom e)) (py (getCoords dom e))] /\
    Forall (brushStamp p) along /\
    isDrawing s' = true /\ lastPoint s' = Some (getCoords dom e) /\
    canvasRect s' = canvasRect s /\ imageDrawRect s' = imageDrawRect s.
Proof.
  intros Hp Hctx Hh Hd Hl.
  destruct (strokeStamps_Ret last (getCoords dom e) Hh) as (along & Hstamps & Hall).
  unfold draw', draw. cbn [isDrawing lastPoint setMousePos].
  rewrite Hd, Hp, Hl, Hctx. cbn [andb]. rewrite Hstamps. cbn [bind].
  exists along. eexists. split; [reflexivity|].
  cbn [maskCanvas isDrawing lastPoint canvasRect imageDrawRect
       setLastPoint setMaskCanvas].
  repeat split; assumption.
Qed.

Lemma drawMoves_while_drawing (moves : list MouseEvent) :
  isPaintable p = true -> maskContext dom = true -> brushHardness p <= 1 ->
  forall (s : CanvasState) (last : Point),
    isDrawing s = true -> lastPoint s = Some last ->
    exists (added : list Stamp) (s' : CanvasState),
      drawMoves' moves s = Ret s' /\
      maskCanvas s' = maskCanvas s ++ added /\
      Forall (brushStamp p) added /\
      (forall e : MouseEvent,
          In e moves ->
          In (softCircle p (px (getCoords dom e)) (py (getCoords dom e))) added) /\
      isDrawing s' = true /\
      lastPoint s' = Some (List.last (map (getCoords dom) moves) last) /\
      canvasRect s' = canvasRect s.
Proof.
  intros Hp Hctx Hh. induction moves as [|e rest IH]; intros s last Hd Hl.
  - exists [], s. rewrite app_nil_r. repeat split; try assumption.
    + constructor.
    + intros e [].
  - destruct (draw_while_drawing e s last Hp Hctx Hh Hd Hl)
      as (along & s1 & Hdraw & Hmask1 & Hall1 & Hd1 & Hl1 & Hrect1 & _).
    destruct (IH s1 (getCoords dom e) Hd1 Hl1)
      as (added & s' & Hrest & Hmask & Hall & Hevery & Hd' & Hl' & Hrect').
    exists (along ++ [softCircle p (px (getCoords dom e)) (py (getCoords dom e))] ++ added), s'.
    split.
    { unfold drawMoves', drawMoves. fold drawMoves.
      fold draw'. rewrite Hdraw. cbn [bind]. exact Hrest. }
    split; [rewrite Hmask, Hmask1, <- !app_assoc; reflexivity|].
    split.
    { apply Forall_app. split; [exact Hall1|].
      apply Forall_app. split; [|exact Hall].
      constructor; [split; reflexivity | constructor]. }
    split.
    { intros e' [<-|Hin].
      - apply in_or_app. right. left. reflexivity.
      - apply in_or_app. right. right. apply Hevery. exact Hin. }
    split; [exact Hd'|].
    split; [|congruence].
    rewrite Hl'. cbn [map]. rewrite last_cons_default. reflexivity.
Qed.

(** X11.  Without the paint tool the pointer paints nothing: a press and a
    release leave the state as it is, and a whole gesture, whatever the brush,
    returns with the mask, the stroke state and the canvas rectangle
    untouched. *)
Theorem strokes_need_paint_tool :
  forall (e0 : MouseEvent) (moves : list MouseEvent) (s : CanvasState),
    isPaintable p = false ->
    startDrawing p dom e0 s = Ret s /\
    stopDrawing p s = s /\
    exists s' : CanvasState,
      paintGesture Math_hypot Math_atan2 Math_cos Math_sin p dom e0 moves s = Ret s' /\
      maskCanvas s' = maskCanvas s /\ isDrawing s' = isDrawing s /\
      lastPoint s' = lastPoint s /\ canvasRect s' = canvasRect s.
Proof.
  intros e0 moves s Hp.
  assert (Hstart : startDrawing p dom e0 s = Ret s).
  { unfold startDrawing. rewrite Hp. reflexivity. }
  split; [exact Hstart|].
  split; [unfold stopDrawing; rewrite Hp; reflexivity|].
  unfold paintGesture. rewrite Hstart. cbn [bind].
  apply drawMoves_unpaintable. exact Hp.
Qed.

(** X12.  With the paint tool, a 2d context and a hardness the gradient
    accepts, a paint gesture only adds to the mask: what was painted before
    stays first, every stamp added has the radius [brushSize / 2], every
    pointer position reported during the gesture, the press included, gets a
    stamp centred exactly on it, and the stroke is left open at the last
    position.  The canvas rectangle is not touched. *)
Theorem paint_gesture_stamps_every_position :
  forall (e0 : MouseEvent) (moves : list MouseEvent) (s : CanvasState),
    isPaintable p = true -> maskContext dom = true -> brushHardness p <= 1 ->
    exists (added : list Stamp) (s' : CanvasState),
      paintGesture Math_hypot Math_atan2 Math_cos Math_sin p dom e0 moves s = Ret s' /\
      maskCanvas s' = maskCanvas s ++ added /\
      Forall (brushStamp p) added /\
      (forall e : MouseEvent,
          In e (e0 :: moves) ->
          In (softCircle p (px (getCoords dom e)) (py (getCoords dom e))) added) /\
      isDrawing s' = true /\
      lastPoint s' = Some (List.last (map (getCoords dom) moves) (getCoords dom e0)) /\
      canvasRect s' = canvasRect s.
Proof.
  intros e0 moves s Hp Hctx Hh.
  set (first := softCircle p (px (getCoords dom e0)) (py (getCoords dom e0))).
  assert (Hstart : startDrawing p dom e0 s
                   = Ret (fillOnMask first
                            (setLastPoint (Some (getCoords dom e0)) (setIsDrawing true s)))).
  { unfold startDrawing. rewrite Hp, Hctx. cbn [negb].
    rewrite drawSoftCircle_Ret by assumption. reflexivity. }
  destruct (drawMoves_while_drawing moves Hp Hctx Hh
              (fillOnMask first
                 (setLastPoint (Some (getCoords dom e0)) (setIsDrawing true s)))
              (getCoords dom e0) eq_refl eq_refl)
    as (added & s' & Hrest & Hmask & Hall & Hevery & Hd' & Hl' & Hrect').
  exists (first :: added), s'.
  split; [unfold paintGesture; rewrite Hstart; exact Hrest|].
  split.
  { rewrite Hmask. cbn [maskCanvas fillOnMask setMaskCanvas].
    rewrite <- app_assoc. reflexivity. }
  split; [constructor; [split; reflexivity | exact Hall]|].
  split.
  { intros e [<-|Hin]; [left; reflexivity | right; apply Hevery; exact Hin]. }
  split; [exact Hd'|]. split; [exact Hl' | exact Hrect'].
Qed.

End PaintFacts.

Lemma strokes_need_paint_tool_witness :
  exists s' : CanvasState,
    paintGesture (fun dx dy => Qabs dx + Qabs dy) (fun _ _ => 0) (fun _ => 1) (fun _ => 0)
      (mkProps Session.jpeg 40 (7 # 10) 1 (Some expand)) Session.dom
      (mkMouse 110 120) [mkMouse 150 120] Session.loaded = Ret s' /\
    maskCanvas s' = [].
Proof.
  destruct (strokes_need_paint_tool
              (fun dx dy => Qabs dx + Qabs dy) (fun _ _ => 0) (fun _ => 1) (fun _ => 0)
              (mkProps Session.jpeg 40 (7 # 10) 1 (Some expand)) Session.dom
              (mkMouse 110 120) [mkMouse 150 120] Session.loaded eq_refl)
    as (_ & _ & s' & Hs' & Hmask & _).
  exists s'. split; [exact Hs' | exact Hmask].
Defined.

Lemma paint_gesture_stamps_every_position_witness :
  exists (added : list Stamp) (s' : CanvasState),
    paintGesture (fun dx dy => Qabs dx + Qabs dy) (fun _ _ => 0) (fun _ => 1) (fun _ => 0)
      Session.brush Session.dom (mkMouse 110 120) [mkMouse 150 120; mkMouse 150 180]
      Session.loaded = Ret s' /\
    maskCanvas s' = added /\
    In (softCircle Session.brush 150 120) added /\
    lastPoint s' = Some (mkPoint (150 - 0) (180 - 0)).
Proof.
  destruct (paint_gesture_stamps_every_position
              (fun dx dy => Qabs dx + Qabs dy) (fun _ _ => 0) (fun _ => 1) (fun _ => 0)
              Session.brush Session.dom
              (mkMouse 110 120) [mkMouse 150 120; mkMouse 150 180] Session.loaded
              eq_refl eq_refl)
    as (added & s' & Hs' & Hmask & _ & Hevery & _ & Hlast & _); [qeval|].
  exists added, s'.
  split; [exact Hs'|]. split; [exact Hmask|].
  split; [|exact Hlast].
  assert (Hin := Hevery (mkMouse 150 120) (or_intror (or_introl eq_refl))).
  exact Hin.
Defined.

(** ** Where the mask lands *)

Lemma scaled_within (a k w : Q) :
  0 < k -> (0 <= a * k /\ a * k <= w * k) <-> (0 <= a /\ a <= w).
Proof.
  intro Hk. split; intros [H0 H1]; split.
  - apply (Qmult_le_r _ _ k Hk). lra.
  - apply (Qmult_le_r _ _ k Hk). exact H1.
  - apply Qmult_le_0_compat; lra.
  - apply Qmult_le_compat_r; lra.
Qed.

(** X13.  In the mask-overlay export of an image of positive natural size
    drawn on a rectangle of positive size, a pixel of the mask lands on the
    output canvas exactly when it lies on the drawn image: the corners of the
    image rectangle land on the corners of the output, and mask painted
    outside the image falls off it. *)
Theorem composite_mask_lands_on_image :
  forall (p : Props) (dom : Dom) (c : Container) (s : CanvasState)
         (img : HTMLImageElement),
    imageEl s = Some img ->
    containerRef dom = Some c -> has2d dom = true ->
    0 < width (imageDrawRect s) -> 0 < height (imageDrawRect s) ->
    0 < naturalWidth img -> 0 < naturalHeight img ->
    let i := imageDrawRect s in
    exists e : Export,
      getCompositeImageWithMask p dom s = Ret e /\
      forall pt : Point,
        exists q : Point,
          maskLandings (calls (source (payload e))) (1, 1) [] pt = [q] /\
          ((0 <= px q /\ px q <= outWidth (source (payload e)))
           <-> (x i <= px pt /\ px pt <= x i + width i)) /\
          ((0 <= py q /\ py q <= outHeight (source (payload e)))
           <-> (y i <= py pt /\ py pt <= y i + height i)) /\
          (px pt == x i -> px q == 0) /\
          (px pt == x i + width i -> px q == outWidth (source (payload e))) /\
          (py pt == y i -> py q == 0) /\
          (py pt == y i + height i -> py q == outHeight (source (payload e))).
Proof.
  intros p dom c s img Himg Hc H2d Hw Hh Hnw Hnh i.
  unfold getCompositeImageWithMask. rewrite Himg, H2d, Hc. simpl.
  rewrite !jsdiv_Ret by (apply Qnot_eq_sym, Qlt_not_eq; assumption). simpl.
  eexists. split; [reflexivity|]. simpl.
  fold i. change (0 < width i) in Hw. change (0 < height i) in Hh. clearbody i.
  set (kx := naturalWidth img / width i).
  set (ky := naturalHeight img / height i).
  assert (Hkx : 0 < kx) by (apply Qlt_shift_div_l; lra).
  assert (Hky : 0 < ky) by (apply Qlt_shift_div_l; lra).
  assert (Ewx : naturalWidth img == width i * kx) by (unfold kx; field; lra).
  assert (Ewy : naturalHeight img == height i * ky) by (unfold ky; field; lra).
  intro pt. eexists. split; [reflexivity|]. cbn [px py].
  assert (Eqx : 1 * kx * (px pt + - x i) == (px pt - x i) * kx) by ring.
  assert (Eqy : 1 * ky * (py pt + - y i) == (py pt - y i) * ky) by ring.
  rewrite Eqx, Eqy, Ewx, Ewy.
  split; [rewrite (scaled_within (px pt - x i) kx (width i) Hkx); split; intros [? ?]; split; lra|].
  split; [rewrite (scaled_within (py pt - y i) ky (height i) Hky); split; intros [? ?]; split; lra|].
  split; [intro E; rewrite E; ring|].
  split; [intro E; rewrite E; ring|].
  split; intro E; rewrite E; ring.
Qed.

Lemma composite_mask_lands_on_image_witness :
  exists (e : Export) (q : Point),
    getCompositeImageWithMask Session.brush Session.dom Session.painted = Ret e /\
    maskLandings (calls (source (payload e))) (1, 1) [] (mkPoint 400 350) = [q] /\
    px q == 800 /\ py q == 600.
Proof.
  destruct (composite_mask_lands_on_image Session.brush Session.dom
              (mkContainer 400 400 0 0) Session.painted (mkImage 800 600))
    as (e & He & Hland); try reflexivity.
  destruct (Hland (mkPoint 400 350)) as (q & Hq & _ & _ & _ & Hx & _ & Hy).
  exists e, q. split; [exact He|]. split; [exact Hq|].
  split.
  - transitivity (outWidth (source (payload e))).
    + apply Hx. qeval.
    + unfold getCompositeImageWithMask in He. simpl in He.
      injection He as <-. reflexivity.
  - transitivity (outHeight (source (payload e))).
    + apply Hy. qeval.
    + unfold getCompositeImageWithMask in He. simpl in He.
      injection He as <-. reflexivity.
Defined.

(** ** The pane *)

(** X14.  The canvas is paintable exactly when the inpainting tool is open
    in the pane and expandable exactly when the expand or the resize tool
    is, never both; under the pane's other tools, or none, it is neither, so
    it ignores strokes and handle drags. *)
Theorem canvas_tool_follows_pane :
  forall (img : string) (s : EditPane.State),
    (isPaintable (EditPane.canvasProps img s) = true
     <-> EditPane.activeTool s = Some inpainting) /\
    (isExpandable (EditPane.canvasProps img s) = true
     <-> EditPane.activeTool s = Some expand \/ EditPane.activeTool s = Some resize) /\
    isPaintable (EditPane.canvasProps img s)
    && isExpandable (EditPane.canvasProps img s) = false /\
    (forall tool : EditTool,
        In tool [background; relighting; skyReplace; textRemove; upscale] ->
        EditPane.activeTool s = Some tool ->
        isPaintable (EditPane.canvasProps img s) = false /\
        isExpandable (EditPane.canvasProps img s) = false).
Proof.
  intros img s.
  unfold isPaintable, isExpandable, EditPane.canvasProps; cbn [activeTool].
  destruct (EditPane.activeTool s) as [[]|]; cbn.
  all: split; [split; intro H; first [reflexivity | discriminate H]|].
  all: split;
    [split;
       [intro H; first [discriminate H | left; reflexivity | right; reflexivity]
       |intros [H|H]; first [reflexivity | discriminate H]]|].
  all: split; [reflexivity|].
  all: intros tool Hin Ht; first [discriminate Ht | injection Ht as <-].
  all: repeat (destruct Hin as [Hin|Hin];
               [first [discriminate Hin | split; reflexivity]|]).
  all: contradiction.
Qed.

Lemma canvas_tool_follows_pane_witness :
  isPaintable (EditPane.canvasProps Session.jpeg
                 (EditPane.handleToggleTool relighting (Session.pane Session.painted)))
  = false /\
  isExpandable (EditPane.canvasProps Session.jpeg
                  (EditPane.handleToggleTool relighting (Session.pane Session.painted)))
  = false.
Proof.
  destruct (canvas_tool_follows_pane Session.jpeg
              (EditPane.handleToggleTool relighting (Session.pane Session.painted)))
    as (_ & _ & _ & Hother).
  apply (Hother relighting); [simpl; tauto | reflexivity].
Defined.

(** X15.  The tools of the pane open one at a time: after a toggle the
    active tool is the toggled one or none, the one that was open is closed
    whichever it was, and toggling the same tool twice brings back the state
    the pane had, unless another tool was open (it is then left with
    none). *)
Theorem toggle_one_tool_at_a_time :
  forall (tool : EditTool) (s : EditPane.State),
    (EditPane.activeTool (EditPane.handleToggleTool tool s) = Some tool \/
     EditPane.activeTool (EditPane.handleToggleTool tool s) = None) /\
    (EditPane.activeTool s = Some tool ->
     EditPane.activeTool (EditPane.handleToggleTool tool s) = None) /\
    (EditPane.activeTool s <> Some tool ->
     EditPane.activeTool (EditPane.handleToggleTool tool s) = Some tool) /\
    (EditPane.activeTool s = None \/ EditPane.activeTool s = Some tool ->
     EditPane.handleToggleTool tool (EditPane.handleToggleTool tool s) = s) /\
    (forall other : EditTool,
        EditPane.activeTool s = Some other -> other <> tool ->
        EditPane.activeTool
          (EditPane.handleToggleTool tool (EditPane.handleToggleTool tool s)) = None).
Proof.
  intros tool s. destruct s as [im oi pr bs bo bh rw rh active ld er lm cv].
  unfold EditPane.handleToggleTool; cbn [EditPane.activeTool EditPane.setActiveTool
    EditPane.image EditPane.originalImage EditPane.prompt EditPane.brushSize
    EditPane.brushOpacity EditPane.brushHardness EditPane.resizeWidth
    EditPane.resizeHeight EditPane.isLoading EditPane.error EditPane.loadingMessage
    EditPane.canvasRef].
  assert (Hrefl : forall t : EditTool, EditTool_eqb t t = true) by (intros []; reflexivity).
  assert (Heq : forall a b : EditTool, EditTool_eqb a b = true -> a = b)
    by (intros [] []; simpl; congruence).
  destruct active as [a|]; cbn [activeTool_is].
  - destruct (EditTool_eqb a tool) eqn:E; cbn [activeTool_is]; rewrite ?Hrefl.
    + apply Heq in E. subst a.
      split; [right; reflexivity|]. split; [reflexivity|].
      split; [congruence|]. split; [reflexivity|].
      intros other Ho Hne. congruence.
    + split; [left; reflexivity|]. split; [intro Ha; injection Ha as ->; rewrite Hrefl in E; discriminate|].
      split; [reflexivity|].
      split; [intros [Hn|Hs]; [discriminate | injection Hs as ->; rewrite Hrefl in E; discriminate]|].
      reflexivity.
  - rewrite Hrefl.
    split; [left; reflexivity|]. split; [discriminate|].
    split; [reflexivity|]. split; [reflexivity|].
    intros other Ho. discriminate.
Qed.

Lemma toggle_one_tool_at_a_time_witness :
  EditPane.handleToggleTool inpainting
    (EditPane.handleToggleTool inpainting (Session.pane Session.painted))
  = Session.pane Session.painted.
Proof.
  destruct (toggle_one_tool_at_a_time inpainting (Session.pane Session.painted))
    as (_ & _ & _ & Htwice & _).
  apply Htwice. right. reflexivity.
Defined.

(** ** Edit actions *)

(** X16.  [executeEditAction] never lets an exception of its action out and
    never leaves the loading flag on.  Without an image it does nothing.
    Otherwise the action starts with the loading flag on and the error
    cleared; if it throws, the image and the canvas are as before and the
    error is the failure message; if it returns, its image replaces the
    current one. *)
Theorem executeEditAction_outcomes :
  forall (action : EditPane.State -> outcome (string * EditPane.State))
         (message : string) (s : EditPane.State),
    let started :=
      EditPane.setError None
        (EditPane.setLoadingMessage message (EditPane.setIsLoading true s)) in
    (forall msg : string, EditPane.executeEditAction action message s <> Throw msg) /\
    (truthy (EditPane.image s) = None ->
     EditPane.executeEditAction action message s = Ret s) /\
    (truthy (EditPane.image s) <> None ->
     EditPane.isLoading started = true /\ EditPane.error started = None /\
     (forall msg : string,
         action started = Throw msg ->
         exists s' : EditPane.State,
           EditPane.executeEditAction action message s = Ret s' /\
           EditPane.isLoading s' = false /\
           EditPane.error s' = Some (EditPane.failureMessage message) /\
           EditPane.image s' = EditPane.image s /\
           EditPane.canvasRef s' = EditPane.canvasRef s /\
           EditPane.prompt s' = EditPane.prompt s) /\
     (forall (result : string) (s2 : EditPane.State),
         action started = Ret (result, s2) ->
         exists s' : EditPane.State,
           EditPane.executeEditAction action message s = Ret s' /\
           EditPane.isLoading s' = false /\
           EditPane.image s' = Some result /\
           EditPane.error s' = EditPane.error s2 /\
           EditPane.canvasRef s' = EditPane.canvasRef s2)).
Proof.
  intros action message s started.
  unfold EditPane.executeEditAction. fold started.
  split; [|split].
  - intros msg. destruct (truthy (EditPane.image s)); [|discriminate].
    destruct (action started) as [[result s2]| |]; discriminate.
  - intros Hnone. rewrite Hnone. reflexivity.
  - intros Himg. destruct (truthy (EditPane.image s)) as [img|]; [|congruence].
    split; [reflexivity|]. split; [reflexivity|]. split.
    + intros msg Hact. rewrite Hact. eexists. split; [reflexivity|].
      repeat split.
    + intros result s2 Hact. rewrite Hact. eexists. split; [reflexivity|].
      repeat split.
Qed.

Lemma executeEditAction_outcomes_witness :
  exists s' : EditPane.State,
    EditPane.executeEditAction (fun _ => Throw "offline") "Upscaling image..."
      (Session.pane Session.painted) = Ret s' /\
    EditPane.isLoading s' = false /\
    EditPane.error s' = Some "Failed to upscaling image. Please try again."%string /\
    EditPane.canvasRef s' = Some Session.painted.
Proof.
  destruct (executeEditAction_outcomes (fun _ => Throw "offline") "Upscaling image..."
              (Session.pane Session.painted))
    as (_ & _ & Hrun).
  destruct Hrun as (_ & _ & Hthrow & _); [discriminate|].
  destruct (Hthrow "offline"%string eq_refl) as (s' & Hs' & Hload & Herr & _ & Hcanvas & _).
  exists s'. split; [exact Hs'|]. split; [exact Hload|].
  split; [exact Herr | exact Hcanvas].
Defined.

Example isBlank_white_space :
  EditPane.isBlank noBreakSpaces = true /\
  EditPane.isBlank (String (ascii_of_nat 9) (String (ascii_of_nat 10) " ")) = true /\
  EditPane.isBlank (String (ascii_of_nat 239) (String (ascii_of_nat 187)
                      (String (ascii_of_nat 191) EmptyString))) = true /\
  EditPane.isBlank (String (ascii_of_nat 195) (String (ascii_of_nat 169) EmptyString))
  = false /\
  EditPane.isBlank (String (ascii_of_nat 194) (String (ascii_of_nat 160) "sky")) = false /\
  EditPane.isBlank " a " = false.
Proof. repeat split. Qed.

(** X17.  [handleEdit] does nothing, and calls no service, when the prompt is
    blank (nothing but the white space [trim] strips, the Unicode spaces
    included) or no canvas is mounted.  When the canvas has no image loaded, the
    export fails before the service is called: whatever the service would
    answer, the pane gets the failure message and keeps its image, its prompt
    and its canvas, mask included. *)
Theorem handleEdit_guards :
  forall (dom : Dom) (s : EditPane.State),
    (EditPane.isBlank (EditPane.prompt s) = true \/ EditPane.canvasRef s = None ->
     forall editImage : DataURL -> string -> string -> outcome string,
       EditPane.handleEdit editImage dom s = Ret s) /\
    (forall (c : CanvasState) (img : string),
        EditPane.canvasRef s = Some c -> imageEl c = None ->
        EditPane.image s = Some img -> img <> EmptyString ->
        EditPane.isBlank (EditPane.prompt s) = false ->
        exists s' : EditPane.State,
          (forall editImage : DataURL -> string -> string -> outcome string,
              EditPane.handleEdit editImage dom s = Ret s') /\
          EditPane.error s' = Some (EditPane.failureMessage "Applying edits...") /\
          EditPane.image s' = Some img /\
          EditPane.prompt s' = EditPane.prompt s /\
          EditPane.canvasRef s' = Some c).
Proof.
  intros dom s. split.
  - intros Hguard editImage. unfold EditPane.handleEdit.
    destruct (EditPane.canvasRef s); [|reflexivity].
    destruct Hguard as [Hblank|Hnone]; [|discriminate].
    rewrite Hblank. reflexivity.
  - intros c img Hc Hnoimg Himg Hne Hprompt.
    assert (Htruthy : truthy (Some img) = Some img).
    { destruct img; [congruence | reflexivity]. }
    eexists. split.
    + intro editImage. unfold EditPane.handleEdit, EditPane.executeEditAction.
      rewrite Hc, Hprompt, Himg, Htruthy.
      cbn [EditPane.canvasRef EditPane.image EditPane.setError
           EditPane.setLoadingMessage EditPane.setIsLoading EditPane.prompt].
      rewrite Hc, Himg. unfold getCompositeImageWithMask. rewrite Hnoimg.
      cbn [bind]. reflexivity.
    + cbn. rewrite Himg, Hc. repeat split.
Qed.

Lemma handleEdit_guards_witness :
  EditPane.handleEdit (fun _ _ _ => Ret "data:image/png;base64,BBBB"%string) Session.dom
    (EditPane.setPrompt noBreakSpaces (Session.pane Session.painted))
  = Ret (EditPane.setPrompt noBreakSpaces (Session.pane Session.painted)).
Proof.
  destruct (handleEdit_guards Session.dom
              (EditPane.setPrompt noBreakSpaces (Session.pane Session.painted)))
    as (Hguard & _).
  apply Hguard. left. reflexivity.
Defined.

(** X18.  [handleExpand] submits the expanded export, always as
    ['image/png'] whatever the encoding of the source.  When the service
    returns an image it replaces the current one while the canvas, mask
    included, and the prompt stay as they were; when the service throws, the
    image stays and the error is set. *)
Theorem handleExpand_outcomes :
  forall (editImage : DataURL -> string -> string -> outcome string)
         (dom : Dom) (s : EditPane.State) (c : CanvasState)
         (img : string) (im : HTMLImageElement),
    EditPane.canvasRef s = Some c ->
    EditPane.image s = Some img -> img <> EmptyString ->
    imageEl c = Some im -> has2d dom = true ->
    exists expanded : Export,
      getFinalExpandedImage dom c = Ret expanded /\
      mimeType expanded = "image/png"%string /\
      (forall result : string,
          editImage (payload expanded) "image/png"%string EditActions.expandPrompt = Ret result ->
          exists s' : EditPane.State,
            EditActions.handleExpand editImage dom s = Ret s' /\
            EditPane.image s' = Some result /\
            EditPane.canvasRef s' = Some c /\
            EditPane.prompt s' = EditPane.prompt s /\
            EditPane.error s' = None) /\
      (forall msg : string,
          editImage (payload expanded) "image/png"%string EditActions.expandPrompt = Throw msg ->
          exists s' : EditPane.State,
            EditActions.handleExpand editImage dom s = Ret s' /\
            EditPane.image s' = Some img /\
            EditPane.canvasRef s' = Some c /\
            EditPane.error s' = Some (EditPane.failureMessage "Expanding image...")).
Proof.
  intros editImage dom s c img im Hc Himg Hne Him H2d.
  assert (Htruthy : truthy (Some img) = Some img).
  { destruct img; [congruence | reflexivity]. }
  assert (Hexp : exists expanded : Export,
             getFinalExpandedImage dom c = Ret expanded /\
             mimeType expanded = "image/png"%string).
  { unfold getFinalExpandedImage. rewrite Him, H2d. simpl.
    eexists. split; reflexivity. }
  destruct Hexp as (expanded & Hexp & Hmime).
  exists expanded. split; [exact Hexp|]. split; [exact Hmime|].
  split.
  - intros result Hres.
    unfold EditActions.handleExpand, EditPane.executeEditAction.
    rewrite Hc, Himg, Htruthy.
    cbn [EditPane.canvasRef EditPane.setError EditPane.setLoadingMessage
         EditPane.setIsLoading].
    rewrite Hc, Hexp. cbn [bind]. rewrite Hmime, Hres. cbn [bind].
    eexists. split; [reflexivity|]. cbn. rewrite Hc. repeat split.
  - intros msg Hres.
    unfold EditActions.handleExpand, EditPane.executeEditAction.
    rewrite Hc, Himg, Htruthy.
    cbn [EditPane.canvasRef EditPane.setError EditPane.setLoadingMessage
         EditPane.setIsLoading].
    rewrite Hc, Hexp. cbn [bind]. rewrite Hmime, Hres. cbn [bind].
    eexists. split; [reflexivity|]. cbn. rewrite Hc, Himg. repeat split.
Qed.

Lemma handleExpand_outcomes_witness :
  exists s' : EditPane.State,
    EditActions.handleExpand (fun _ _ _ => Ret "data:image/png;base64,BBBB"%string)
      Session.dom (Session.pane Session.painted) = Ret s' /\
    EditPane.image s' = Some "data:image/png;base64,BBBB"%string /\
    EditPane.canvasRef s' = Some Session.painted.
Proof.
  destruct (handleExpand_outcomes
              (fun _ _ _ => Ret "data:image/png;base64,BBBB"%string)
              Session.dom (Session.pane Session.painted) Session.painted
              Session.jpeg (mkImage 800 600))
    as (expanded & _ & _ & Hok & _); try reflexivity; try discriminate.
  destruct (Hok "data:image/png;base64,BBBB"%string eq_refl)
    as (s' & Hs' & Himg & Hcanvas & _).
  exists s'. split; [exact Hs'|]. split; [exact Himg | exact Hcanvas].
Defined.

(** ** Data URLs *)

Lemma includes_app (a b : string) (c : ascii) :
  includes (a ++ b) c = includes a c || includes b c.
Proof.
  induction a as [|d a IH]; simpl; [reflexivity|].
  rewrite IH, orb_assoc. reflexivity.
Qed.

Lemma split_whole (sep : ascii) (s : string) :
  includes s sep = false -> GeminiService.split sep s = [s].
Proof.
  induction s as [|c s IH]; simpl; [reflexivity|].
  intro H. apply orb_false_iff in H. destruct H as [Hc Hs].
  rewrite Hc, (IH Hs). reflexivity.
Qed.

Lemma split_first (sep : ascii) (a b : string) :
  includes a sep = false ->
  GeminiService.split sep (a ++ String sep b) = a :: GeminiService.split sep b.
Proof.
  induction a as [|c a IH]; simpl.
  - intros _. rewrite Ascii.eqb_refl. reflexivity.
  - intro H. apply orb_false_iff in H. destruct H as [Hc Ha].
    rewrite Hc, (IH Ha). reflexivity.
Qed.

Lemma string_app_assoc (a b c : string) :
  ((a ++ b) ++ c = a ++ (b ++ c))%string.
Proof. induction a as [|d a IH]; simpl; [reflexivity | rewrite IH; reflexivity]. Qed.

Lemma dataUrl_mimeTypeOf (mime data : string) :
  includes mime ";" = false -> includes mime ":" = false ->
  EditActions.mimeTypeOf (GeminiService.dataUrl mime data) = Some mime.
Proof.
  intros Hsemi Hcolon. unfold EditActions.mimeTypeOf, GeminiService.dataUrl.
  replace ("data:" ++ mime ++ ";base64," ++ data)%string
    with (("data:" ++ mime) ++ String ";" ("base64," ++ data))%string
    by (rewrite string_app_assoc; reflexivity).
  rewrite split_first by (rewrite includes_app, Hsemi; reflexivity).
  change ("data:" ++ mime)%string with ("data" ++ String ":" mime)%string.
  rewrite split_first by reflexivity.
  rewrite split_whole by assumption. reflexivity.
Qed.

Lemma dataUrl_inlineDataOf (mime data : string) :
  includes mime "," = false -> includes data "," = false ->
  GeminiService.inlineDataOf (GeminiService.dataUrl mime data) = Some data.
Proof.
  intros Hm Hd. unfold GeminiService.inlineDataOf, GeminiService.dataUrl.
  replace ("data:" ++ mime ++ ";base64," ++ data)%string
    with (("data:" ++ mime ++ ";base64") ++ String "," data)%string
    by (rewrite !string_app_assoc; reflexivity).
  rewrite split_first by (rewrite !includes_app, Hm; reflexivity).
  rewrite split_whole by assumption. reflexivity.
Qed.

(** X19.  A data URL the service builds from a MIME type and base64 data is
    taken apart again by the rest of the code: the MIME type the pane's
    handlers read off an image ([split(';')[0].split(':')[1]]) is the one it
    was built with, and the data a request sends ([split(',')[1]]) is the
    data it was built with, provided the MIME type holds none of [; : ,] and
    the data no comma. *)
Theorem dataUrl_round_trip :
  forall mime data : string,
    includes mime ";" = false -> includes mime ":" = false ->
    includes mime "," = false -> includes data "," = false ->
    EditActions.mimeTypeOf (GeminiService.dataUrl mime data) = Some mime /\
    GeminiService.inlineDataOf (GeminiService.dataUrl mime data) = Some data.
Proof.
  intros mime data Hsemi Hcolon Hcomma Hdata. split.
  - apply dataUrl_mimeTypeOf; assumption.
  - apply dataUrl_inlineDataOf; assumption.
Qed.

Lemma dataUrl_round_trip_witness :
  EditActions.mimeTypeOf (GeminiService.dataUrl "image/png" "iVBORw0KGgo=") = Some "image/png"%string /\
  GeminiService.inlineDataOf (GeminiService.dataUrl "image/png" "iVBORw0KGgo=")
  = Some "iVBORw0KGgo="%string.
Proof.
  apply (dataUrl_round_trip "image/png" "iVBORw0KGgo="); reflexivity.
Defined.

Lemma imageOfParts_first (failure : string) (before after : list GeminiService.Part)
  (mime data : string) :
  Forall (fun part => GeminiService.inlineData part = None) before ->
  GeminiService.imageOfParts failure
    (before ++ GeminiService.mkPart (Some (mime, data)) :: after)
  = Ret (GeminiService.dataUrl mime data).
Proof.
  induction 1 as [|part rest Hnone _ IH]; simpl; [reflexivity|].
  rewrite Hnone. exact IH.
Qed.

Lemma imageOfParts_none (failure : string) (parts : list GeminiService.Part) :
  Forall (fun part => GeminiService.inlineData part = None) parts ->
  GeminiService.imageOfParts failure parts = Throw failure.
Proof.
  induction 1 as [|part rest Hnone _ IH]; simpl; [reflexivity|].
  rewrite Hnone. exact IH.
Qed.

(** X20.  From the parts of a response, [editImage] and [generateFromDoodle]
    return the data URL of the first part that carries inline data, whatever
    comes after it, and the pane reads back from that URL the MIME type the
    part declared; a response with no such part, an empty one included, makes
    them throw their failure message. *)
Theorem editImage_first_image_part :
  forall (before after : list GeminiService.Part) (mime data : string),
    Forall (fun part => GeminiService.inlineData part = None) before ->
    GeminiService.editImageResult before
    = Throw "Image editing failed or returned no image data." /\
    GeminiService.editImageResult
      (before ++ GeminiService.mkPart (Some (mime, data)) :: after)
    = Ret (GeminiService.dataUrl mime data) /\
    GeminiService.generateFromDoodleResult before
    = Throw "Doodle generation failed or returned no image data." /\
    GeminiService.generateFromDoodleResult
      (before ++ GeminiService.mkPart (Some (mime, data)) :: after)
    = Ret (GeminiService.dataUrl mime data) /\
    (includes mime ";" = false -> includes mime ":" = false ->
     exists url : string,
       GeminiService.editImageResult
         (before ++ GeminiService.mkPart (Some (mime, data)) :: after) = Ret url /\
       EditActions.mimeTypeOf url = Some mime).
Proof.
  intros before after mime data Hbefore.
  unfold GeminiService.editImageResult, GeminiService.generateFromDoodleResult.
  split; [apply imageOfParts_none; exact Hbefore|].
  split; [apply imageOfParts_first; exact Hbefore|].
  split; [apply imageOfParts_none; exact Hbefore|].
  split; [apply imageOfParts_first; exact Hbefore|].
  intros Hsemi Hcolon. eexists.
  split; [apply imageOfParts_first; exact Hbefore|].
  apply dataUrl_mimeTypeOf; assumption.
Qed.

Lemma editImage_first_image_part_witness :
  GeminiService.editImageResult
    [GeminiService.mkPart None;
     GeminiService.mkPart (Some ("image/png", "AAAA"))%string;
     GeminiService.mkPart (Some ("image/jpeg", "BBBB"))%string]
  = Ret "data:image/png;base64,AAAA"%string.
Proof.
  destruct (editImage_first_image_part
              [GeminiService.mkPart None]
              [GeminiService.mkPart (Some ("image/jpeg", "BBBB"))%string]
              "image/png" "AAAA")
    as (_ & Hfirst & _).
  - repeat constructor.
  - exact Hfirst.
Defined.

(** ** The modes of the application *)

Lemma App_step_invariant (s : App.State) (ev : App.Event) :
  (App.mode s <> App.edit -> App.currentImage s = None) ->
  App.mode (App.step s ev) <> App.edit -> App.currentImage (App.step s ev) = None.
Proof.
  intros Hinv. destruct ev as [m|url]; simpl.
  - unfold App.handleModeChange. destruct m; simpl; congruence.
  - congruence.
Qed.

Lemma App_fold_invariant (evs : list App.Event) :
  forall s : App.State,
    (App.mode s <> App.edit -> App.currentImage s = None) ->
    App.mode (fold_left App.step evs s) <> App.edit ->
    App.currentImage (fold_left App.step evs s) = None.
Proof.
  induction evs as [|ev rest IH]; intros s Hinv; simpl.
  - exact Hinv.
  - apply IH. apply App_step_invariant. exact Hinv.
Qed.

(** X21.  Whatever sequence of mode changes and images sent to edit the
    application goes through, it holds an image only in edit mode: leaving
    edit mode drops the image, and an image that is ready always opens edit
    mode with that image. *)
Theorem App_image_only_in_edit_mode :
  forall evs : list App.Event,
    (App.mode (App.run evs) <> App.edit -> App.currentImage (App.run evs) = None) /\
    (forall url : string,
        App.mode (App.run (evs ++ [App.ImageReady url])) = App.edit /\
        App.currentImage (App.run (evs ++ [App.ImageReady url])) = Some url) /\
    (forall m : App.Mode,
        m <> App.edit ->
        App.mode (App.run (evs ++ [App.ModeChange m])) = m /\
        App.currentImage (App.run (evs ++ [App.ModeChange m])) = None) /\
    App.currentImage (App.run (evs ++ [App.ModeChange App.edit]))
    = App.currentImage (App.run evs).
Proof.
  intro evs. unfold App.run. split; [|split; [|split]].
  - apply App_fold_invariant. reflexivity.
  - intro url. rewrite fold_left_app. simpl. split; reflexivity.
  - intros m Hm. rewrite fold_left_app. simpl. unfold App.handleModeChange.
    destruct m; simpl; try (split; reflexivity). congruence.
  - rewrite fold_left_app. reflexivity.
Qed.

Lemma App_image_only_in_edit_mode_witness :
  App.mode (App.run [App.ImageReady "data:image/png;base64,AAAA";
                     App.ModeChange App.doodle]) = App.doodle /\
  App.currentImage (App.run [App.ImageReady "data:image/png;base64,AAAA";
                             App.ModeChange App.doodle]) = None.
Proof.
  destruct (App_image_only_in_edit_mode [App.ImageReady "data:image/png;base64,AAAA"])
    as (_ & _ & Hleave & _).
  apply (Hleave App.doodle). discriminate.
Defined.

(** ** The sketch canvas *)

Lemma sketch_drawMoves_idle (canvasRef : option DrawingCanvas.CanvasEl)
  (moves : list DrawingCanvas.PointerEvent) (s : DrawingCanvas.State) :
  DrawingCanvas.isDrawing s = false ->
  DrawingCanvas.drawMoves canvasRef moves s = Ret s.
Proof.
  intro Hidle. induction moves as [|e rest IH]; simpl; [reflexivity|].
  unfold DrawingCanvas.draw. rewrite Hidle. simpl. exact IH.
Qed.

Lemma sketch_drawMoves_chain (canvas : DrawingCanvas.CanvasEl)
  (moves : list DrawingCanvas.PointerEvent) :
  DrawingCanvas.context2d canvas = true ->
  forall (path : list Point) (s : DrawingCanvas.State) (last : Point),
    Forall2 (fun e pt => DrawingCanvas.getCoords (Some canvas) e = Ret pt) moves path ->
    DrawingCanvas.isDrawing s = true ->
    DrawingCanvas.lastPoint s = Some last ->
    DrawingCanvas.drawMoves (Some canvas) moves s
    = Ret (DrawingCanvas.mkSketch true (Some (List.last path last))
             (DrawingCanvas.ink s ++ DrawingCanvas.chain last path)).
Proof.
  intro Hctx. induction moves as [|e rest IH]; intros path s last Hpath Hd Hl.
  - inversion Hpath; subst. simpl. rewrite app_nil_r.
    destruct s as [d l i]; simpl in *. subst. reflexivity.
  - inversion Hpath as [|e' pt rest' path' Hpt Hrest]; subst.
    destruct s as [d l i].
    cbn [DrawingCanvas.isDrawing DrawingCanvas.lastPoint] in Hd, Hl. subst d l.
    cbn [DrawingCanvas.drawMoves]. unfold DrawingCanvas.draw.
    cbn [DrawingCanvas.isDrawing DrawingCanvas.lastPoint DrawingCanvas.ink negb].
    rewrite Hpt, Hctx. cbn [bind].
    rewrite (IH path' (DrawingCanvas.mkSketch true (Some pt)
                         (i ++ [DrawingCanvas.mkSegment last pt]))
                pt Hrest eq_refl eq_refl).
    cbn [DrawingCanvas.ink DrawingCanvas.chain].
    rewrite <- app_assoc, last_cons_default. reflexivity.
Qed.

(** X22.  On the sketch canvas, with a 2d context, a stroke through the
    positions of a press and of the moves that follow draws exactly the
    segments joining each position to the next, after what was drawn
    before: no gap, and no segment from an earlier stroke.  It is left open
    at the last position.  A touch is read at its first touch point, like a
    mouse event at its own. *)
Theorem sketch_stroke_is_a_chain :
  forall (canvas : DrawingCanvas.CanvasEl) (e0 : DrawingCanvas.PointerEvent)
         (moves : list DrawingCanvas.PointerEvent) (p0 : Point) (path : list Point)
         (s : DrawingCanvas.State),
    DrawingCanvas.context2d canvas = true ->
    DrawingCanvas.getCoords (Some canvas) e0 = Ret p0 ->
    Forall2 (fun e pt => DrawingCanvas.getCoords (Some canvas) e = Ret pt) moves path ->
    (s1 <- DrawingCanvas.startDrawing (Some canvas) e0 s ;;
     DrawingCanvas.drawMoves (Some canvas) moves s1)
    = Ret (DrawingCanvas.mkSketch true (Some (List.last path p0))
             (DrawingCanvas.ink s ++ DrawingCanvas.chain p0 path)) /\
    (forall (tx ty : Q) (others : list (Q * Q)),
        DrawingCanvas.getCoords (Some canvas) (DrawingCanvas.touch ((tx, ty) :: others))
        = DrawingCanvas.getCoords (Some canvas) (DrawingCanvas.mouse tx ty)).
Proof.
  intros canvas e0 moves p0 path s Hctx Hp0 Hpath. split.
  - unfold DrawingCanvas.startDrawing. rewrite Hp0. cbn [bind].
    rewrite (sketch_drawMoves_chain canvas moves Hctx path
               (DrawingCanvas.mkSketch true (Some p0) (DrawingCanvas.ink s))
               p0 Hpath eq_refl eq_refl).
    reflexivity.
  - reflexivity.
Qed.

Lemma sketch_stroke_is_a_chain_witness :
  (s1 <- DrawingCanvas.startDrawing (Some (DrawingCanvas.mkCanvasEl 10 20 true))
           (DrawingCanvas.mouse 10 20) (DrawingCanvas.mkSketch false None []) ;;
   DrawingCanvas.drawMoves (Some (DrawingCanvas.mkCanvasEl 10 20 true))
     [DrawingCanvas.mouse 15 20; DrawingCanvas.touch [(15, 30); (99, 99)]] s1)
  = Ret (DrawingCanvas.mkSketch true (Some (mkPoint (15 - 10) (30 - 20)))
           [DrawingCanvas.mkSegment (mkPoint (10 - 10) (20 - 20)) (mkPoint (15 - 10) (20 - 20));
            DrawingCanvas.mkSegment (mkPoint (15 - 10) (20 - 20)) (mkPoint (15 - 10) (30 - 20))]).
Proof.
  destruct (sketch_stroke_is_a_chain (DrawingCanvas.mkCanvasEl 10 20 true)
              (DrawingCanvas.mouse 10 20)
              [DrawingCanvas.mouse 15 20; DrawingCanvas.touch [(15, 30); (99, 99)]]
              (mkPoint (10 - 10) (20 - 20))
              [mkPoint (15 - 10) (20 - 20); mkPoint (15 - 10) (30 - 20)]
              (DrawingCanvas.mkSketch false None []))
    as (Hchain & _).
  - reflexivity.
  - reflexivity.
  - repeat constructor.
  - exact Hchain.
Defined.

(** X23.  The sketch canvas draws only between a press and a release: while
    no stroke is open, moves change nothing and read no coordinates, so they
    cannot fail, even a touch event without touches; a release keeps the ink
    and closes the stroke, so that the next stroke starts afresh.  Clearing
    with a 2d context empties the ink and nothing else, and the data handed
    out is always declared ['image/png']. *)
Theorem sketch_draws_only_in_a_stroke :
  forall (canvasRef : option DrawingCanvas.CanvasEl)
         (moves : list DrawingCanvas.PointerEvent) (s : DrawingCanvas.State),
    (DrawingCanvas.isDrawing s = false ->
     DrawingCanvas.drawMoves canvasRef moves s = Ret s) /\
    DrawingCanvas.drawMoves canvasRef moves (DrawingCanvas.stopDrawing s)
    = Ret (DrawingCanvas.stopDrawing s) /\
    DrawingCanvas.ink (DrawingCanvas.stopDrawing s) = DrawingCanvas.ink s /\
    (forall canvas : DrawingCanvas.CanvasEl,
        canvasRef = Some canvas -> DrawingCanvas.context2d canvas = true ->
        DrawingCanvas.clearCanvas canvasRef s
        = DrawingCanvas.mkSketch (DrawingCanvas.isDrawing s) (DrawingCanvas.lastPoint s) []) /\
    snd (DrawingCanvas.getCanvasData canvasRef s) = "image/png"%string.
Proof.
  intros canvasRef moves s.
  split; [apply sketch_drawMoves_idle|].
  split; [apply sketch_drawMoves_idle; reflexivity|].
  split; [reflexivity|].
  split.
  - intros canvas -> Hctx. unfold DrawingCanvas.clearCanvas. rewrite Hctx. reflexivity.
  - unfold DrawingCanvas.getCanvasData. destruct canvasRef; reflexivity.
Qed.

Lemma sketch_draws_only_in_a_stroke_witness :
  DrawingCanvas.drawMoves (Some (DrawingCanvas.mkCanvasEl 10 20 true))
    [DrawingCanvas.touch []; DrawingCanvas.mouse 15 20]
    (DrawingCanvas.mkSketch false None [])
  = Ret (DrawingCanvas.mkSketch false None []).
Proof.
  destruct (sketch_draws_only_in_a_stroke (Some (DrawingCanvas.mkCanvasEl 10 20 true))
              [DrawingCanvas.touch []; DrawingCanvas.mouse 15 20]
              (DrawingCanvas.mkSketch false None []))
    as (Hidle & _).
  apply Hidle. reflexivity.
Defined.

(** ** More on the fit *)

(** X24.  The fit is the largest rectangle of the ratio of the image that the
    container holds: it has positive size, it spans the container in width
    or in height, and any rectangle of that ratio no wider and no higher
    than the container is no wider and no higher than the fit. *)
Theorem fitImageToContainer_largest :
  forall (Wc Hc l t Wi Hi : Q) (ok : bool),
    0 < Wc -> 0 < Hc -> 0 < Wi -> 0 < Hi ->
    exists r : Rect,
      fitImageToContainer (mkDom (Some (mkContainer Wc Hc l t)) ok) (mkImage Wi Hi)
      = Ret r /\
      0 < width r /\ 0 < height r /\
      (width r == Wc \/ height r == Hc) /\
      (forall w h : Q,
          0 < h -> w == h * (Wi / Hi) -> w <= Wc -> h <= Hc ->
          w <= width r /\ h <= height r).
Proof.
  intros Wc Hc l t Wi Hi ok HWc HHc HWi HHi.
  assert (Hr : 0 < Wi / Hi) by (apply Qlt_shift_div_l; lra).
  assert (Hcpos : 0 < Wc / (Wi / Hi)) by (apply Qlt_shift_div_l; lra).
  rewrite fitImageToContainer_eq by assumption.
  destruct (Qgtb (Wc / (Wi / Hi)) Hc) eqn:E.
  - eexists; split; [reflexivity|]; cbn [x y width height].
    split; [apply Qmult_lt_0_compat; assumption|].
    split; [assumption|].
    split; [right; reflexivity|].
    intros w h Hh Hw HwWc HhHc. split; [|assumption].
    rewrite Hw. apply Qmult_le_compat_r; lra.
  - eexists; split; [reflexivity|]; cbn [x y width height].
    split; [assumption|]. split; [assumption|].
    split; [left; reflexivity|].
    intros w h Hh Hw HwWc HhHc. split; [assumption|].
    apply Qle_shift_div_l; [assumption|]. rewrite <- Hw. assumption.
Qed.

Lemma fitImageToContainer_largest_witness :
  exists r : Rect,
    fitImageToContainer (mkDom (Some (mkContainer 400 400 0 0)) true) (mkImage 800 600)
    = Ret r /\
    (width r == 400 \/ height r == 400) /\
    (200 <= width r /\ 150 <= height r).
Proof.
  destruct (fitImageToContainer_largest 400 400 0 0 800 600 true)
    as (r & Hfit & _ & _ & Hspan & Hmax); try reflexivity.
  exists r. split; [exact Hfit|]. split; [exact Hspan|].
  apply Hmax; qeval.
Defined.

(** X25.  The fit depends on the ratio of the image only: an image of the
    same ratio at another scale is fitted to a rectangle that denotes the
    same numbers. *)
Theorem fitImageToContainer_scale_free :
  forall (Wc Hc l t Wi Hi k : Q) (ok : bool),
    0 < Wc -> 0 < Hc -> 0 < Wi -> 0 < Hi -> 0 < k ->
    exists r r' : Rect,
      fitImageToContainer (mkDom (Some (mkContainer Wc Hc l t)) ok) (mkImage Wi Hi)
      = Ret r /\
      fitImageToContainer (mkDom (Some (mkContainer Wc Hc l t)) ok)
                          (mkImage (k * Wi) (k * Hi))
      = Ret r' /\
      Rect_eq r r'.
Proof.
  intros Wc Hc l t Wi Hi k ok HWc HHc HWi HHi Hk.
  assert (HkW : 0 < k * Wi) by (apply Qmult_lt_0_compat; assumption).
  assert (HkH : 0 < k * Hi) by (apply Qmult_lt_0_compat; assumption).
  assert (Eratio : k * Wi / (k * Hi) == Wi / Hi) by (field; split; lra).
  rewrite !fitImageToContainer_eq by assumption.
  assert (Ebranch : Qgtb (Wc / (k * Wi / (k * Hi))) Hc = Qgtb (Wc / (Wi / Hi)) Hc).
  { unfold Qgtb, Qltb. f_equal. rewrite Eratio. reflexivity. }
  rewrite Ebranch.
  eexists. eexists. split; [reflexivity|]. split; [reflexivity|].
  destruct (Qgtb (Wc / (Wi / Hi)) Hc); unfold Rect_eq; cbn [x y width height];
    rewrite Eratio; repeat split; reflexivity.
Qed.

Lemma fitImageToContainer_scale_free_witness :
  exists r r' : Rect,
    fitImageToContainer (mkDom (Some (mkContainer 400 400 0 0)) true) (mkImage 4 3)
    = Ret r /\
    fitImageToContainer (mkDom (Some (mkContainer 400 400 0 0)) true)
                        (mkImage (200 * 4) (200 * 3))
    = Ret r' /\
    Rect_eq r r'.
Proof.
  apply (fitImageToContainer_scale_free 400 400 0 0 4 3 200 true); reflexivity.
Defined.
